(** * GraphContractor: node contraction of the contraction-hierarchy engine

    Shallow embedding of [include/contractor/graph_contractor.hpp]:
    [GraphContractor::ContractNode<RUNSIMULATION>] and
    [ThreadDataContainer::GetThreadData], with the properties the
    specification states about them.

    Conventions of the embedding.
    - [NodeID] is [nat].  [EdgeWeight] ([std::int32_t] in
      [util/typedefs.hpp]) is [Z], and the sums of weights and of durations
      that [ContractNode] forms are those of the machine: they wrap around
      at 32 bits ([EdgeWeight_add]).  The [int] counters of
      [ContractionStats] and the original-edge counts are [Z].
    - [std::vector] is [list]; [v[i]] with [i] out of range is undefined
      behaviour and is the outcome [OutOfBounds].
    - [BOOST_ASSERT(c)] with [c] false is the outcome [AssertionFailed]
      (the checked build).
    - The witness search [ContractorDijkstra] is an interface
      ([ContractorDijkstraOps]); the properties hold for every
      implementation of it. *)

From stdpp Require Import base tactics option list numbers gmap.

Local Open Scope Z_scope.

(** ** Outcomes of a run *)

Inductive result (A : Type) : Type :=
| Ok (a : A)
| AssertionFailed
| OutOfBounds.
Arguments Ok {A} a.
Arguments AssertionFailed {A}.
Arguments OutOfBounds {A}.

#[global] Instance result_ret : MRet result := fun A a => Ok a.
#[global] Instance result_bind : MBind result := fun A B f r =>
  match r with
  | Ok a => f a
  | AssertionFailed => AssertionFailed
  | OutOfBounds => OutOfBounds
  end.

(** A range-based [for] loop whose body may stop the run. *)
Fixpoint for_each {A S : Type} (body : A → S → result S) (l : list A) (s : S)
  : result S :=
  match l with
  | [] => Ok s
  | x :: l' => s' ← body x s; for_each body l' s'
  end.

(** ** Data model *)

Abbreviation NodeID := nat (only parsing).
Abbreviation EdgeWeight := Z (only parsing).

(** [EdgeWeight] is a signed 32-bit integer: a sum that leaves
    [-2^31 .. 2^31 - 1] wraps around. *)
Definition EdgeWeight_wrap (z : Z) : EdgeWeight :=
  (z + 2147483648) `mod` 4294967296 - 2147483648.

(** [a + b] on [EdgeWeight]. *)
Definition EdgeWeight_add (a b : EdgeWeight) : EdgeWeight := EdgeWeight_wrap (a + b).

(** [ContractorEdgeData], with the members [ContractNode] reads and the
    constructor arguments it passes. *)
Record ContractorEdgeData : Type := mkContractorEdgeData {
  weight : EdgeWeight;
  duration : EdgeWeight;
  id : NodeID;
  originalEdges : Z;
  shortcut : bool;
  forward : bool;
  backward : bool
}.

Record ContractorEdge : Type := mkContractorEdge {
  source : NodeID;
  target : NodeID;
  data : ContractorEdgeData
}.

(** The nine-argument constructor used by [emplace_back]. *)
Definition ContractorEdge_new (s t : NodeID) (w d : EdgeWeight) (original_edges : Z)
    (via : NodeID) (is_shortcut fwd bwd : bool) : ContractorEdge :=
  mkContractorEdge s t (mkContractorEdgeData w d via original_edges is_shortcut fwd bwd).

(** One entry of a node's adjacent-edge range: what [graph.GetTarget] and
    [graph.GetEdgeData] return for that edge. *)
Record GraphEdge : Type := mkGraphEdge {
  GetTarget : NodeID;
  GetEdgeData : ContractorEdgeData
}.

(** The graph store as adjacency arrays; a node without an entry has an
    empty edge range. *)
Abbreviation ContractorGraph := (list (list GraphEdge)) (only parsing).

Definition GetAdjacentEdgeRange (g : ContractorGraph) (node : NodeID) : list GraphEdge :=
  default [] (g !! node).

Record ContractorHeapData : Type := mkContractorHeapData {
  hop : Z;
  is_target : bool
}.

(** [ContractorHeapData{}] *)
Definition ContractorHeapData_default : ContractorHeapData := mkContractorHeapData 0 false.

Record ContractionStats : Type := mkContractionStats {
  edges_deleted_count : Z;
  edges_added_count : Z;
  original_edges_deleted_count : Z;
  original_edges_added_count : Z
}.

Definition ContractionStats_new : ContractionStats := mkContractionStats 0 0 0 0.

(** ** The witness search, as an interface *)

Class ContractorDijkstraOps (D : Type) : Type := {
  Dijkstra_new : Z → D;
  Clear : D → D;
  Insert : NodeID → EdgeWeight → ContractorHeapData → D → D;
  WasInserted : D → NodeID → bool;
  GetKey : D → NodeID → EdgeWeight;
  Run : nat → Z → EdgeWeight → NodeID → ContractorGraph → D → D
}.

(** What [ContractNode] relies on: a node counts as inserted from its
    [Insert] until the next [Clear]. *)
Class ContractorDijkstraLaws (D : Type) `{!ContractorDijkstraOps D} : Prop := {
  WasInserted_Clear : ∀ d n, WasInserted (Clear d) n = false;
  WasInserted_Insert : ∀ d n w hd n',
    WasInserted (Insert n w hd d) n' = bool_decide (n = n') || WasInserted d n'
}.

(** ** ContractNode *)

Section ContractNode.
Context {D : Type} `{!ContractorDijkstraOps D}.

(** [INVALID_EDGE_WEIGHT] of [util/typedefs.hpp]. *)
Variable INVALID_EDGE_WEIGHT : EdgeWeight.

(** The objects [ContractNode] touches: the members [graph] and
    [node_weights] of the [GraphContractor], the three members of
    [*data], and [stats] ([None] is [nullptr]). *)
Record Mem : Type := mkMem {
  graph : ContractorGraph;
  node_weights : list EdgeWeight;
  dijkstra : D;
  inserted_edges : list ContractorEdge;
  neighbours : list NodeID;
  stats : option ContractionStats
}.

Definition set_node_weights (nw : list EdgeWeight) (m : Mem) : Mem :=
  mkMem (graph m) nw (dijkstra m) (inserted_edges m) (neighbours m) (stats m).
Definition set_dijkstra (d : D) (m : Mem) : Mem :=
  mkMem (graph m) (node_weights m) d (inserted_edges m) (neighbours m) (stats m).
Definition set_inserted_edges (v : list ContractorEdge) (m : Mem) : Mem :=
  mkMem (graph m) (node_weights m) (dijkstra m) v (neighbours m) (stats m).
Definition set_stats (s : ContractionStats) (m : Mem) : Mem :=
  mkMem (graph m) (node_weights m) (dijkstra m) (inserted_edges m) (neighbours m) (Some s).

(** [BOOST_ASSERT(stats != nullptr)], giving the record behind [stats]. *)
Definition assert_stats (m : Mem) : result ContractionStats :=
  match stats m with
  | Some s => Ok s
  | None => AssertionFailed
  end.

(** [node_weights[n]] as an rvalue. *)
Definition read_node_weight (n : NodeID) (m : Mem) : result EdgeWeight :=
  match node_weights m !! n with
  | Some w => Ok w
  | None => OutOfBounds
  end.

(** [node_weights[n] = w]. *)
Definition write_node_weight (n : NodeID) (w : EdgeWeight) (m : Mem) : result Mem :=
  match node_weights m !! n with
  | Some _ => Ok (set_node_weights (<[n := w]> (node_weights m)) m)
  | None => OutOfBounds
  end.

Definition SHORTCUT_ARC : bool := true.
Definition FORWARD_DIRECTION_ENABLED : bool := true.
Definition FORWARD_DIRECTION_DISABLED : bool := false.
Definition REVERSE_DIRECTION_ENABLED : bool := true.
Definition REVERSE_DIRECTION_DISABLED : bool := false.

Definition emplace_back (e : ContractorEdge) (m : Mem) : Mem :=
  set_inserted_edges (inserted_edges m ++ [e]) m.

(** The two [emplace_back] calls of lines 193-213 and 261-279. *)
Definition insert_shortcuts (node source target : NodeID)
    (in_data out_data : ContractorEdgeData) (path_weight : EdgeWeight) (m : Mem) : Mem :=
  let m1 :=
    emplace_back (ContractorEdge_new source target path_weight
                    (EdgeWeight_add (duration in_data) (duration out_data))
                    (originalEdges out_data + originalEdges in_data)
                    node SHORTCUT_ARC FORWARD_DIRECTION_ENABLED REVERSE_DIRECTION_DISABLED) m in
  emplace_back (ContractorEdge_new target source path_weight
                  (EdgeWeight_add (duration in_data) (duration out_data))
                  (originalEdges out_data + originalEdges in_data)
                  node SHORTCUT_ARC FORWARD_DIRECTION_DISABLED REVERSE_DIRECTION_ENABLED) m1.

(** [stats->edges_added_count += 2;
     stats->original_edges_added_count += 2 * (out + in)]. *)
Definition count_added (in_data out_data : ContractorEdgeData) (s : ContractionStats)
  : ContractionStats :=
  mkContractionStats (edges_deleted_count s) (edges_added_count s + 2)
    (original_edges_deleted_count s)
    (original_edges_added_count s + 2 * (originalEdges out_data + originalEdges in_data)).

(** [++stats->edges_deleted_count;
     stats->original_edges_deleted_count += in_data.originalEdges]. *)
Definition count_deleted (in_data : ContractorEdgeData) (s : ContractionStats)
  : ContractionStats :=
  mkContractionStats (edges_deleted_count s + 1) (edges_added_count s)
    (original_edges_deleted_count s + originalEdges in_data)
    (original_edges_added_count s).

(** Body of the first loop over the outgoing edges (lines 156-224).  The
    loop state is the memory with the locals [max_weight] and
    [number_of_targets]. *)
Definition register_target (RUNSIMULATION : bool) (node source : NodeID)
    (in_data : ContractorEdgeData) (out_edge : GraphEdge)
    (s : Mem * EdgeWeight * nat) : result (Mem * EdgeWeight * nat) :=
  let '(m, max_weight, number_of_targets) := s in
  let out_data := GetEdgeData out_edge in
  if negb (forward out_data) then Ok s else
  let target := GetTarget out_edge in
  if bool_decide (node = target) then Ok s else
  let path_weight := EdgeWeight_add (weight in_data) (weight out_data) in
  if bool_decide (target = source) then
    w ← read_node_weight node m;
    if bool_decide (path_weight < w) then
      if RUNSIMULATION then
        m1 ← write_node_weight source (EdgeWeight_add path_weight 1) m;
        st ← assert_stats m1;
        Ok (set_stats (count_added in_data out_data st) m1, max_weight, number_of_targets)
      else
        m1 ← write_node_weight source path_weight m;
        Ok (insert_shortcuts node source target in_data out_data path_weight m1,
            max_weight, number_of_targets)
    else Ok s
  else
    let max_weight := Z.max max_weight path_weight in
    if negb (WasInserted (dijkstra m) target) then
      Ok (set_dijkstra
            (Insert target INVALID_EDGE_WEIGHT (mkContractorHeapData 0 true) (dijkstra m)) m,
          max_weight, S number_of_targets)
    else Ok (m, max_weight, number_of_targets).

(** Body of the second loop over the outgoing edges (lines 237-282). *)
Definition shortcut_if_needed (RUNSIMULATION : bool) (node source : NodeID)
    (in_data : ContractorEdgeData) (out_edge : GraphEdge) (m : Mem) : result Mem :=
  let out_data := GetEdgeData out_edge in
  if negb (forward out_data) then Ok m else
  let target := GetTarget out_edge in
  if bool_decide (target = node) then Ok m else
  let path_weight := EdgeWeight_add (weight in_data) (weight out_data) in
  let w := GetKey (dijkstra m) target in
  if bool_decide (path_weight < w) then
    if RUNSIMULATION then
      st ← assert_stats m;
      Ok (set_stats (count_added in_data out_data st) m)
    else
      Ok (insert_shortcuts node source target in_data out_data path_weight m)
  else Ok m.

Definition SIMULATION_SEARCH_SPACE_SIZE : Z := 1000.
Definition FULL_SEARCH_SPACE_SIZE : Z := 2000.

(** Body of the loop over the incoming edges (lines 133-283).  [range] is
    [graph.GetAdjacentEdgeRange(node)], which lines 156 and 237 take again;
    nothing in the function writes the graph. *)
Definition contract_in_edge (RUNSIMULATION : bool) (node : NodeID)
    (range : list GraphEdge) (in_edge : GraphEdge) (m : Mem) : result Mem :=
  let in_data := GetEdgeData in_edge in
  let source := GetTarget in_edge in
  if bool_decide (source = node) then Ok m else
  m ← (if RUNSIMULATION
       then st ← assert_stats m; Ok (set_stats (count_deleted in_data st) m)
       else Ok m);
  if negb (backward in_data) then Ok m else
  let m := set_dijkstra (Clear (dijkstra m)) m in
  let m := set_dijkstra (Insert source 0 ContractorHeapData_default (dijkstra m)) m in
  '(m, max_weight, number_of_targets) ←
    for_each (register_target RUNSIMULATION node source in_data) range (m, 0, 0%nat);
  let m :=
    if RUNSIMULATION
    then set_dijkstra (Run number_of_targets SIMULATION_SEARCH_SPACE_SIZE max_weight node
                         (graph m) (dijkstra m)) m
    else set_dijkstra (Run number_of_targets FULL_SEARCH_SPACE_SIZE max_weight node
                         (graph m) (dijkstra m)) m in
  for_each (shortcut_if_needed RUNSIMULATION node source in_data) range m.

(** [inserted_edges[i]] *)
Definition at_index (v : list ContractorEdge) (i : nat) : result ContractorEdge :=
  match v !! i with
  | Some e => Ok e
  | None => OutOfBounds
  end.

(** [inserted_edges[i] = e] *)
Definition assign_index (v : list ContractorEdge) (i : nat) (e : ContractorEdge)
  : result (list ContractorEdge) :=
  if decide (i < length v)%nat then Ok (<[i := e]> v) else OutOfBounds.

(** [x.data.forward |= y.data.forward; x.data.backward |= y.data.backward] *)
Definition or_flags (x y : ContractorEdge) : ContractorEdge :=
  mkContractorEdge (source x) (target x)
    (mkContractorEdgeData (weight (data x)) (duration (data x)) (id (data x))
       (originalEdges (data x)) (shortcut (data x))
       (forward (data x) || forward (data y))
       (backward (data x) || backward (data y))).

(** The inner loop of lines 292-314, from index [other] with
    [iend - other] iterations left; gives [found] and the vector. *)
Fixpoint merge_into_later (todo : nat) (i other : nat) (v : list ContractorEdge)
  : result (bool * list ContractorEdge) :=
  match todo with
  | O => Ok (false, v)
  | S todo' =>
      e_other ← at_index v other;
      e_i ← at_index v i;
      if negb (bool_decide (source e_other = source e_i))
      then merge_into_later todo' i (S other) v
      else if negb (bool_decide (target e_other = target e_i))
      then merge_into_later todo' i (S other) v
      else if negb (bool_decide (weight (data e_other) = weight (data e_i)))
      then merge_into_later todo' i (S other) v
      else if negb (bool_decide (shortcut (data e_other) = shortcut (data e_i)))
      then merge_into_later todo' i (S other) v
      else
        v ← assign_index v other (or_flags e_other e_i);
        Ok (true, v)
  end.

(** The outer loop of lines 289-319, from index [i] with [iend - i]
    iterations left; gives the final [inserted_edges_size] and the vector. *)
Fixpoint merge_duplicates (todo : nat) (iend i inserted_edges_size : nat)
    (v : list ContractorEdge) : result (nat * list ContractorEdge) :=
  match todo with
  | O => Ok (inserted_edges_size, v)
  | S todo' =>
      '(found, v) ← merge_into_later (iend - (i + 1)) i (i + 1) v;
      if negb found then
        e_i ← at_index v i;
        v ← assign_index v inserted_edges_size e_i;
        merge_duplicates todo' iend (S i) (S inserted_edges_size) v
      else merge_duplicates todo' iend (S i) inserted_edges_size v
  end.

(** [ContractNode] with the adjacent-edge range of [node] given. *)
Definition ContractNode_range (RUNSIMULATION : bool) (node : NodeID)
    (range : list GraphEdge) (m : Mem) : result Mem :=
  let inserted_edges_size := length (inserted_edges m) in
  m ← for_each (contract_in_edge RUNSIMULATION node range) range m;
  if negb RUNSIMULATION then
    let iend := length (inserted_edges m) in
    '(inserted_edges_size, v) ←
      merge_duplicates (iend - inserted_edges_size) iend inserted_edges_size
        inserted_edges_size (inserted_edges m);
    (* inserted_edges.resize(inserted_edges_size), never growing *)
    Ok (set_inserted_edges (take inserted_edges_size v) m)
  else Ok m.

(** [ContractNode<RUNSIMULATION>(data, node, stats)]; the value returned
    is always [true] and is left out. *)
Definition ContractNode (RUNSIMULATION : bool) (node : NodeID) (m : Mem) : result Mem :=
  ContractNode_range RUNSIMULATION node (GetAdjacentEdgeRange (graph m) node) m.

End ContractNode.

(** ** GetThreadData *)

Module ThreadData.
Section GetThreadData.
Context {D : Type} `{!ContractorDijkstraOps D}.

Record ContractorThreadData : Type := mkContractorThreadData {
  dijkstra : D;
  inserted_edges : list ContractorEdge;
  neighbours : list NodeID
}.

(** [explicit ContractorThreadData(NodeID nodes) : dijkstra(nodes) {}] *)
Definition ContractorThreadData_new (nodes : Z) : ContractorThreadData :=
  mkContractorThreadData (Dijkstra_new nodes) [] [].

(** The free store: [make_shared] allocates at the next address; a
    [shared_ptr] is [None] when empty and [Some a] when it owns the
    object at address [a]. *)
Abbreviation FreeStore := (list ContractorThreadData) (only parsing).
Abbreviation shared_ptr := (option nat) (only parsing).

(** [data] holds one [shared_ptr] slot per worker thread that has called
    [local]. *)
Record ThreadDataContainer : Type := mkThreadDataContainer {
  number_of_nodes : Z;
  data : gmap nat shared_ptr
}.

(** [explicit ThreadDataContainer(int number_of_nodes)] *)
Definition ThreadDataContainer_new (number_of_nodes : Z) : ThreadDataContainer :=
  mkThreadDataContainer number_of_nodes ∅.

(** [data.local(exists)]: the calling thread's slot, created empty when
    the thread has none. *)
Definition local (thread : nat) (c : ThreadDataContainer)
  : bool * shared_ptr * ThreadDataContainer :=
  match data c !! thread with
  | Some p => (true, p, c)
  | None => (false, None, mkThreadDataContainer (number_of_nodes c) (<[thread := None]> (data c)))
  end.

Definition make_shared (nodes : Z) (h : FreeStore) : shared_ptr * FreeStore :=
  (Some (length h), h ++ [ContractorThreadData_new nodes]).

(** [GetThreadData()] called by worker [thread]; gives [ref.get()]. *)
Definition GetThreadData (thread : nat) (s : ThreadDataContainer * FreeStore)
  : shared_ptr * (ThreadDataContainer * FreeStore) :=
  let '(c, h) := s in
  let '(exists_, ref, c) := local thread c in
  if negb exists_ then
    let '(p, h) := make_shared 4000 h in
    (p, (mkThreadDataContainer (number_of_nodes c) (<[thread := p]> (data c)), h))
  else (ref, (c, h)).

(** A schedule of calls, one worker after the other; gives the pointers
    returned, in order. *)
Fixpoint GetThreadData_calls (threads : list nat) (s : ThreadDataContainer * FreeStore)
  : list shared_ptr * (ThreadDataContainer * FreeStore) :=
  match threads with
  | [] => ([], s)
  | t :: threads' =>
      let '(p, s1) := GetThreadData t s in
      let '(ps, s2) := GetThreadData_calls threads' s1 in
      (p :: ps, s2)
  end.

End GetThreadData.
End ThreadData.

(** ** A witness search that records its calls *)

Inductive DijkstraCall : Type :=
| CallClear
| CallInsert (node : NodeID) (key : EdgeWeight) (hd : ContractorHeapData)
| CallRun (number_of_targets : nat) (node_limit : Z) (weight_limit : EdgeWeight)
          (forbidden_node : NodeID).

Record Logged (D : Type) : Type := mkLogged {
  inner : D;
  calls : list DijkstraCall
}.
Arguments mkLogged {D} _ _.
Arguments inner {D} _.
Arguments calls {D} _.

#[global] Instance Logged_ops (D : Type) `{!ContractorDijkstraOps D}
  : ContractorDijkstraOps (Logged D) := {|
  Dijkstra_new nodes := mkLogged (Dijkstra_new nodes) [];
  Clear d := mkLogged (Clear (inner d)) (calls d ++ [CallClear]);
  Insert n w hd d := mkLogged (Insert n w hd (inner d)) (calls d ++ [CallInsert n w hd]);
  WasInserted d n := WasInserted (inner d) n;
  GetKey d n := GetKey (inner d) n;
  Run k limit maxw node g d :=
    mkLogged (Run k limit maxw node g (inner d)) (calls d ++ [CallRun k limit maxw node])
|}.

Definition is_run (c : DijkstraCall) : bool :=
  match c with
  | CallRun _ _ _ _ => true
  | _ => false
  end.

(** ** A reference witness search *)

Module WitnessSearch.

(** Modelled from the spec: [ContractorDijkstra]
    ([contractor/contractor_dijkstra.hpp] is not among the sources), after
    section 4.1: a Dijkstra search from the inserted source over the
    forward edges that avoid the contracted node, which stops when all
    targets are settled, when the next node lies beyond the weight bound,
    or when more nodes than the budget were taken from the queue.  A node
    that was never reached keeps the key it was inserted with. *)
Record HeapNode : Type := mkHeapNode {
  hn_node : NodeID;
  hn_key : EdgeWeight;
  hn_data : ContractorHeapData;
  hn_settled : bool
}.

Abbreviation Heap := (list HeapNode) (only parsing).

Definition was_inserted (h : Heap) (n : NodeID) : bool :=
  existsb (λ x, bool_decide (hn_node x = n)) h.

Definition get_key (h : Heap) (n : NodeID) : EdgeWeight :=
  match find (λ x, bool_decide (hn_node x = n)) h with
  | Some x => hn_key x
  | None => 0
  end.

Definition insert (n : NodeID) (w : EdgeWeight) (hd : ContractorHeapData) (h : Heap) : Heap :=
  h ++ [mkHeapNode n w hd false].

(** The queued node of least key, first among equals. *)
Fixpoint min_queued (h : Heap) : option HeapNode :=
  match h with
  | [] => None
  | x :: h' =>
      match min_queued h' with
      | Some y =>
          if hn_settled x then Some y
          else if hn_key y <? hn_key x then Some y else Some x
      | None => if hn_settled x then None else Some x
      end
  end.

Definition settle (n : NodeID) (h : Heap) : Heap :=
  map (λ x, if bool_decide (hn_node x = n)
            then mkHeapNode (hn_node x) (hn_key x) (hn_data x) true else x) h.

Definition decrease_key (n : NodeID) (w : EdgeWeight) (h : Heap) : Heap :=
  map (λ x, if bool_decide (hn_node x = n)
            then mkHeapNode (hn_node x) w (hn_data x) (hn_settled x) else x) h.

Definition relax_edge (node_weight : EdgeWeight) (forbidden_node : NodeID)
    (h : Heap) (e : GraphEdge) : Heap :=
  if negb (forward (GetEdgeData e)) then h
  else if bool_decide (GetTarget e = forbidden_node) then h
  else
    let to_weight := node_weight + weight (GetEdgeData e) in
    if negb (was_inserted h (GetTarget e))
    then insert (GetTarget e) to_weight ContractorHeapData_default h
    else if to_weight <? get_key h (GetTarget e)
    then decrease_key (GetTarget e) to_weight h
    else h.

Fixpoint run_loop (fuel : nat) (nodes : Z) (targets_found : nat)
    (number_of_targets : nat) (node_limit : Z) (weight_limit : EdgeWeight)
    (forbidden_node : NodeID) (g : ContractorGraph) (h : Heap) : Heap :=
  match fuel with
  | O => h
  | S fuel' =>
      match min_queued h with
      | None => h
      | Some x =>
          let h := settle (hn_node x) h in
          let nodes := nodes + 1 in
          if node_limit <? nodes then h
          else if weight_limit <? hn_key x then h
          else
            let targets_found :=
              if is_target (hn_data x) then S targets_found else targets_found in
            if is_target (hn_data x) && (number_of_targets <=? targets_found)%nat then h
            else
              run_loop fuel' nodes targets_found number_of_targets node_limit weight_limit
                forbidden_node g
                (foldl (relax_edge (hn_key x) forbidden_node) h
                   (GetAdjacentEdgeRange g (hn_node x)))
      end
  end.

(** Every turn of the loop counts one node, so [node_limit + 1] turns
    exhaust it. *)
Definition run (number_of_targets : nat) (node_limit : Z) (weight_limit : EdgeWeight)
    (forbidden_node : NodeID) (g : ContractorGraph) (h : Heap) : Heap :=
  run_loop (Z.to_nat node_limit + 1) 0 0 number_of_targets node_limit weight_limit
    forbidden_node g h.

#[global] Instance ops : ContractorDijkstraOps Heap := {|
  Dijkstra_new _ := [];
  Clear _ := [];
  Insert := insert;
  WasInserted := was_inserted;
  GetKey := get_key;
  Run := run
|}.

Lemma was_inserted_insert h n w hd n' :
  was_inserted (insert n w hd h) n' = bool_decide (n = n') || was_inserted h n'.
Proof.
  unfold was_inserted, insert. rewrite existsb_app. simpl.
  rewrite orb_false_r. apply orb_comm.
Qed.

#[global] Instance laws : ContractorDijkstraLaws Heap.
Proof.
  split.
  - reflexivity.
  - intros. apply was_inserted_insert.
Qed.

End WitnessSearch.

(** ** Small road networks *)

Module Example.

(** An edge entry of the base graph: its duration is its weight, it
    stands for one original edge and is no shortcut. *)
Definition edge (to : NodeID) (w : EdgeWeight) (fwd bwd : bool) : GraphEdge :=
  mkGraphEdge to (mkContractorEdgeData w w 0%nat 1 false fwd bwd).

(** A -> B (1), B -> C (1), A -> C (3), with A, B, C numbered 0, 1, 2.
    Each edge is stored at its tail as forward and at its head as
    backward. *)
Definition chain : ContractorGraph :=
  [ [edge 1 1 true false; edge 2 3 true false];
    [edge 0 1 false true; edge 2 1 true false];
    [edge 1 1 false true; edge 0 3 false true] ].

(** Two-way streets 0 - 1 and 1 - 2 of weight 1. *)
Definition street : ContractorGraph :=
  [ [edge 1 1 true true];
    [edge 0 1 true true; edge 2 1 true true];
    [edge 1 1 true true] ].

(** One two-way street 0 - 1 of weight 2. *)
Definition cul_de_sac : ContractorGraph :=
  [ [edge 1 2 true true];
    [edge 0 2 true true] ].

(** Node 0 with an edge to itself, a two-way street to node 1 and a
    one-way street to node 2. *)
Definition roundabout : ContractorGraph :=
  [ [edge 0 5 true true; edge 1 2 true true; edge 2 4 true false];
    [edge 0 2 true true];
    [edge 0 4 false true] ].

(** A -> B (1), two parallel edges B -> C (1 and 5) and B -> D (2), with
    A, B, C, D numbered 0 to 3. *)
Definition parallel : ContractorGraph :=
  [ [edge 1 1 true false];
    [edge 0 1 false true; edge 2 1 true false; edge 3 2 true false; edge 2 5 true false];
    [edge 1 1 false true; edge 1 5 false true];
    [edge 1 2 false true] ].

(** A -> B (1), B -> C (1), B -> D (1) and A -> C (2): from A the direct
    edge to C is as good as the way through B, and D is reached through B
    only. *)
Definition detour : ContractorGraph :=
  [ [edge 1 1 true false; edge 2 2 true false];
    [edge 0 1 false true; edge 2 1 true false; edge 3 1 true false];
    [edge 1 1 false true; edge 0 2 false true];
    [edge 1 1 false true] ].

(** A -> B of the largest weight and B -> C (1): the path weight of
    A -> B -> C leaves the range of [EdgeWeight]. *)
Definition heavy : ContractorGraph :=
  [ [edge 1 2147483647 true false];
    [edge 0 2147483647 false true; edge 2 1 true false];
    [edge 1 1 false true] ].

Definition INVALID_EDGE_WEIGHT : EdgeWeight := 2147483647.

(** Memory with empty scratch buffers, for the reference witness search
    and for the one that records its calls. *)
Definition mem (g : ContractorGraph) (nw : list EdgeWeight) (st : option ContractionStats)
  : @Mem (list WitnessSearch.HeapNode) :=
  mkMem g nw [] [] [] st.

Definition logged_mem (g : ContractorGraph) (nw : list EdgeWeight)
    (st : option ContractionStats) : @Mem (Logged (list WitnessSearch.HeapNode)) :=
  mkMem g nw (mkLogged [] []) [] [] st.

End Example.

(** * Properties *)

(** ** Sums of weights *)

Lemma EdgeWeight_wrap_range (z : Z) : -2147483648 ≤ EdgeWeight_wrap z < 2147483648.
Proof.
  unfold EdgeWeight_wrap.
  pose proof (Z.mod_pos_bound (z + 2147483648) 4294967296). lia.
Qed.

(** Within the range of [EdgeWeight] the sum is the sum of the integers. *)
Lemma EdgeWeight_add_in_range (a b : EdgeWeight) :
  -2147483648 ≤ a + b < 2147483648 → EdgeWeight_add a b = a + b.
Proof.
  intros Hrange. unfold EdgeWeight_add, EdgeWeight_wrap.
  rewrite Z.mod_small by lia. lia.
Qed.

(** ** Loops *)

Section for_each.
Context {A S : Type}.
Implicit Types (body : A → S → result S) (l : list A) (s : S).

Lemma for_each_app body l1 l2 s :
  for_each body (l1 ++ l2) s = s' ← for_each body l1 s; for_each body l2 s'.
Proof.
  revert s. induction l1 as [|x l1 IH]; intros s; simpl; [done|].
  destruct (body x s); simpl; auto.
Qed.

Lemma for_each_snoc body l x s :
  for_each body (l ++ [x]) s = s' ← for_each body l s; body x s'.
Proof.
  rewrite for_each_app. destruct (for_each body l s) as [s1| |]; simpl; try done.
  by destruct (body x s1).
Qed.

Lemma for_each_ext body1 body2 l s :
  (∀ x s, x ∈ l → body1 x s = body2 x s) →
  for_each body1 l s = for_each body2 l s.
Proof.
  revert s. induction l as [|x l IH]; intros s Hb; simpl; [done|].
  rewrite Hb by left. destruct (body2 x s); simpl; auto.
  apply IH. intros; apply Hb; by right.
Qed.

(** Elements on which the body does nothing can be left out. *)
Lemma for_each_filter (P : A → Prop) `{!∀ x, Decision (P x)} body l s :
  (∀ x s, ¬ P x → body x s = Ok s) →
  for_each body (filter P l) s = for_each body l s.
Proof.
  intros Hskip. revert s. induction l as [|x l IH]; intros s; [done|].
  rewrite filter_cons. destruct (decide (P x)) as [Hx|Hx]; simpl.
  - destruct (body x s); simpl; auto.
  - rewrite Hskip by done. simpl. apply IH.
Qed.

(** A loop whose body keeps an invariant and never stops the run. *)
Lemma for_each_total (I : S → Prop) body l s :
  I s →
  (∀ x s, x ∈ l → I s → ∃ s', body x s = Ok s' ∧ I s') →
  ∃ s', for_each body l s = Ok s' ∧ I s'.
Proof.
  revert s. induction l as [|x l IH]; intros s Hs Hb; simpl; [eauto|].
  destruct (Hb x s) as (s1 & -> & Hs1); [by left|done|]. simpl.
  apply IH; [done|]. intros; apply Hb; [by right|done].
Qed.

(** An invariant of the runs that complete. *)
Lemma for_each_invariant (I : S → Prop) body l s s' :
  I s →
  (∀ x s s', x ∈ l → I s → body x s = Ok s' → I s') →
  for_each body l s = Ok s' → I s'.
Proof.
  revert s. induction l as [|x l IH]; intros s Hs Hb; simpl.
  - by intros [= <-].
  - destruct (body x s) as [s1| |] eqn:E; simpl; try done.
    apply IH; [eapply Hb; [by left|done|done]|].
    intros; eapply Hb; [by right|done|done].
Qed.

(** A loop whose body fails no assertion under an invariant fails none. *)
Lemma for_each_no_assert (I : S → Prop) body l s :
  I s →
  (∀ x s, x ∈ l → I s → body x s ≠ AssertionFailed) →
  (∀ x s s', x ∈ l → I s → body x s = Ok s' → I s') →
  for_each body l s ≠ AssertionFailed.
Proof.
  revert s. induction l as [|x l IH]; intros s Hs Hna Hinv; simpl; [done|].
  destruct (body x s) as [s1| |] eqn:E; simpl; try done.
  - apply IH.
    + eapply Hinv; [by left|done|done].
    + intros; apply Hna; [by right|done].
    + intros; eapply Hinv; [by right|done|done].
  - by destruct (Hna x s); [left| |].
Qed.

End for_each.

(** ** What every step of ContractNode leaves alone *)

Section frame.
Context {D : Type} `{!ContractorDijkstraOps D}.
Variable INVALID_EDGE_WEIGHT : EdgeWeight.
Implicit Types (m : @Mem D) (node source : NodeID) (range : list GraphEdge).

Ltac unfold_steps :=
  unfold register_target, shortcut_if_needed, read_node_weight, write_node_weight,
    assert_stats, insert_shortcuts, emplace_back, set_stats, set_dijkstra,
    set_node_weights, set_inserted_edges in *.

(** [node_weights] covers [node] and the far ends of its edges. *)
Definition weights_cover node range m : Prop :=
  (node < length (node_weights m))%nat ∧
  ∀ e, e ∈ range → (GetTarget e < length (node_weights m))%nat.

(** What a step of either mode keeps: the graph, the neighbour buffer,
    the size of [node_weights] and its entry for the contracted node; a
    simulation step keeps the edge buffer and a statistics record stays
    one, a real step keeps [stats] and only appends to the edge buffer. *)
Definition frame (RUNSIMULATION : bool) node m m' : Prop :=
  graph m' = graph m ∧
  neighbours m' = neighbours m ∧
  length (node_weights m') = length (node_weights m) ∧
  node_weights m' !! node = node_weights m !! node ∧
  if RUNSIMULATION
  then inserted_edges m' = inserted_edges m ∧ (is_Some (stats m) → is_Some (stats m'))
  else stats m' = stats m ∧ ∃ new, inserted_edges m' = inserted_edges m ++ new.

Lemma frame_refl sim node m : frame sim node m m.
Proof.
  unfold frame. repeat split; destruct sim; try done.
  split; [done|]. exists []. by rewrite app_nil_r.
Qed.

Lemma frame_trans sim node m1 m2 m3 :
  frame sim node m1 m2 → frame sim node m2 m3 → frame sim node m1 m3.
Proof.
  unfold frame. intros (G1 & N1 & L1 & W1 & R1) (G2 & N2 & L2 & W2 & R2).
  repeat split; try congruence.
  destruct sim.
  - destruct R1, R2. split; [congruence | tauto].
  - destruct R1 as [S1 [n1 E1]], R2 as [S2 [n2 E2]]. split; [congruence|].
    exists (n1 ++ n2). by rewrite E2, E1, app_assoc.
Qed.

Lemma frame_set_dijkstra sim node m d : frame sim node m (set_dijkstra d m).
Proof.
  unfold frame, set_dijkstra; simpl. repeat split; destruct sim; try done.
  split; [done|]. exists []. by rewrite app_nil_r.
Qed.

Lemma register_target_total sim node source in_data out m mw k :
  source ≠ node →
  (node < length (node_weights m))%nat →
  (source < length (node_weights m))%nat →
  (sim = true → is_Some (stats m)) →
  ∃ m' mw' k',
    register_target INVALID_EDGE_WEIGHT sim node source in_data out (m, mw, k)
      = Ok (m', mw', k') ∧ frame sim node m m'.
Proof.
  intros Hne Hnode Hsrc Hstats.
  destruct (lookup_lt_is_Some_2 _ _ Hnode) as [wn Hwn].
  destruct (lookup_lt_is_Some_2 _ _ Hsrc) as [ws Hws].
  unfold_steps.
  destruct (forward (GetEdgeData out)); simpl; [|eauto using frame_refl].
  case_bool_decide; simpl; [eauto using frame_refl|].
  case_bool_decide; simpl.
  - rewrite Hwn; simpl. case_bool_decide; simpl; [|eauto using frame_refl].
    destruct sim; simpl; rewrite Hws; simpl.
    + destruct (Hstats eq_refl) as [st Hst]. rewrite Hst; simpl.
      do 3 eexists; split; [done|]. unfold frame; simpl.
      rewrite length_insert, list_lookup_insert_ne by done. rewrite Hst. repeat split; eauto.
    + do 3 eexists; split; [done|]. unfold frame; simpl.
      rewrite length_insert, list_lookup_insert_ne by done.
      repeat split; try done. eexists. by rewrite <- app_assoc.
  - destruct (WasInserted (dijkstra m) (GetTarget out)); simpl;
      do 3 eexists; (split; [done|]); [apply frame_refl | apply frame_set_dijkstra].
Qed.

Lemma shortcut_if_needed_total sim node source in_data out m :
  (sim = true → is_Some (stats m)) →
  ∃ m', shortcut_if_needed sim node source in_data out m = Ok m' ∧ frame sim node m m'.
Proof.
  intros Hstats. unfold_steps.
  destruct (forward (GetEdgeData out)); simpl; [|eauto using frame_refl].
  case_bool_decide; simpl; [eauto using frame_refl|].
  case_bool_decide; simpl; [|eauto using frame_refl].
  destruct sim; simpl.
  - destruct (Hstats eq_refl) as [st Hst]. rewrite Hst; simpl.
    eexists; split; [done|]. unfold frame; simpl. rewrite Hst. repeat split; eauto.
  - eexists; split; [done|]. unfold frame; simpl.
    repeat split; try done. eexists. by rewrite <- app_assoc.
Qed.

Lemma frame_keeps_stats node m m' :
  frame true node m m' → is_Some (stats m) → is_Some (stats m').
Proof. intros (_ & _ & _ & _ & _ & H). done. Qed.

Lemma register_targets_total sim node source in_data range m mw k :
  source ≠ node →
  (node < length (node_weights m))%nat →
  (source < length (node_weights m))%nat →
  (sim = true → is_Some (stats m)) →
  ∃ m' mw' k',
    for_each (register_target INVALID_EDGE_WEIGHT sim node source in_data) range (m, mw, k)
      = Ok (m', mw', k') ∧ frame sim node m m'.
Proof.
  intros Hne Hnode Hsrc Hstats.
  destruct (for_each_total (λ s, frame sim node m s.1.1)
              (register_target INVALID_EDGE_WEIGHT sim node source in_data) range (m, mw, k))
    as ([[m' mw'] k'] & E & F); simpl.
  - apply frame_refl.
  - intros out [[m1 mw1] k1] _ F1; simpl in F1.
    destruct (register_target_total sim node source in_data out m1 mw1 k1)
      as (m2 & mw2 & k2 & E2 & F2); try done.
    + destruct F1 as (_ & _ & L & _). by rewrite L.
    + destruct F1 as (_ & _ & L & _). by rewrite L.
    + intros ->. eauto using frame_keeps_stats.
    + exists (m2, mw2, k2). split; [done|]. simpl. eauto using frame_trans.
  - eauto.
Qed.

Lemma shortcuts_total sim node source in_data range m :
  (sim = true → is_Some (stats m)) →
  ∃ m', for_each (shortcut_if_needed sim node source in_data) range m = Ok m'
        ∧ frame sim node m m'.
Proof.
  intros Hstats.
  apply (for_each_total (λ m', frame sim node m m')); [apply frame_refl|].
  intros out m1 _ F1.
  destruct (shortcut_if_needed_total sim node source in_data out m1) as (m2 & E2 & F2).
  - intros ->. eauto using frame_keeps_stats.
  - eauto using frame_trans.
Qed.

Lemma contract_in_edge_total sim node range in_edge m :
  (node < length (node_weights m))%nat →
  (GetTarget in_edge < length (node_weights m))%nat →
  (sim = true → is_Some (stats m)) →
  ∃ m', contract_in_edge INVALID_EDGE_WEIGHT sim node range in_edge m = Ok m'
        ∧ frame sim node m m'.
Proof.
  intros Hnode Hsrc Hstats. unfold contract_in_edge.
  case_bool_decide as Hself; [eauto using frame_refl|].
  set (counted := if sim then _ else _).
  assert (∃ m1, counted = Ok m1 ∧ frame sim node m m1 ∧ dijkstra m1 = dijkstra m)
    as (m1 & -> & F1 & Hd).
  { subst counted. destruct sim.
    - destruct (Hstats eq_refl) as [st Hst]. unfold assert_stats. rewrite Hst; simpl.
      eexists; split; [done|]. split; [|done]. unfold frame, set_stats; simpl.
      rewrite Hst. repeat split; eauto.
    - eauto using frame_refl. }
  simpl. destruct (backward (GetEdgeData in_edge)); simpl; [|eauto].
  set (m2 := set_dijkstra _ (set_dijkstra _ m1)).
  assert (frame sim node m m2) as F2.
  { eapply frame_trans; [done|]. eapply frame_trans; apply frame_set_dijkstra. }
  pose proof F2 as (_ & _ & L2 & _).
  destruct (register_targets_total sim node (GetTarget in_edge) (GetEdgeData in_edge)
              range m2 0 0%nat) as (m3 & mw & k & -> & F3); try done; try by rewrite L2.
  { intros ->. eauto using frame_keeps_stats. }
  simpl.
  set (m4 := if sim then _ else _).
  assert (frame sim node m3 m4) as F4.
  { subst m4. destruct sim; apply frame_set_dijkstra. }
  destruct (shortcuts_total sim node (GetTarget in_edge) (GetEdgeData in_edge) range m4)
    as (m5 & -> & F5).
  { intros ->. eauto 10 using frame_keeps_stats, frame_trans. }
  eauto 10 using frame_trans.
Qed.

Lemma contract_in_edges_total sim node range ins m :
  (node < length (node_weights m))%nat →
  (∀ e, e ∈ ins → (GetTarget e < length (node_weights m))%nat) →
  (sim = true → is_Some (stats m)) →
  ∃ m', for_each (contract_in_edge INVALID_EDGE_WEIGHT sim node range) ins m = Ok m'
        ∧ frame sim node m m'.
Proof.
  intros Hnode Hins Hstats.
  apply (for_each_total (λ m', frame sim node m m')); [apply frame_refl|].
  intros e m1 He F1. pose proof F1 as (_ & _ & L & _).
  destruct (contract_in_edge_total sim node range e m1) as (m2 & E2 & F2).
  - by rewrite L.
  - rewrite L. auto.
  - intros ->. eauto using frame_keeps_stats.
  - eauto using frame_trans.
Qed.

End frame.

(** ** Merging of duplicate shortcuts *)

(** The fields lines 294-309 compare. *)
Definition edge_key (e : ContractorEdge) : nat * nat * Z * bool :=
  (source e, target e, weight (data e), shortcut (data e)).

(** The inner loop seen on the list of the later records: the first one
    with the key of [e] takes the flags of [e]. *)
Fixpoint absorb (e : ContractorEdge) (later : list ContractorEdge)
  : option (list ContractorEdge) :=
  match later with
  | [] => None
  | o :: later' =>
      if decide (edge_key o = edge_key e)
      then Some (or_flags o e :: later')
      else cons o <$> absorb e later'
  end.

(** The outer loop seen on the list of the records not yet visited, [n]
    of them: a record absorbed by a later one is dropped, the others are
    kept in order. *)
Fixpoint merged (n : nat) (l : list ContractorEdge) : list ContractorEdge :=
  match n, l with
  | S n', e :: l' =>
      match absorb e l' with
      | Some l'' => merged n' l''
      | None => e :: merged n' l'
      end
  | _, _ => []
  end.

Section merge.
Implicit Types (e o r : ContractorEdge) (l v : list ContractorEdge).

Lemma edge_key_or_flags x y : edge_key (or_flags x y) = edge_key x.
Proof. done. Qed.

Lemma absorb_length e l l' : absorb e l = Some l' → length l' = length l.
Proof.
  revert l'. induction l as [|o l IH]; intros l'; csimpl; [done|].
  case_decide; [by intros [= <-]|].
  destruct (absorb e l) as [l1|]; csimpl; [|done].
  intros [= <-]. csimpl. by rewrite (IH l1).
Qed.

Lemma absorb_keys e l l' : absorb e l = Some l' → edge_key <$> l' = edge_key <$> l.
Proof.
  revert l'. induction l as [|o l IH]; intros l'; csimpl; [done|].
  case_decide; [by intros [= <-]|].
  destruct (absorb e l) as [l1|]; csimpl; [|done].
  intros [= <-]. csimpl. by rewrite (IH l1).
Qed.

Lemma absorb_Some_key e l l' : absorb e l = Some l' → edge_key e ∈ edge_key <$> l.
Proof.
  revert l'. induction l as [|o l IH]; intros l'; csimpl; [done|].
  case_decide as Hk; [intros _; rewrite <- Hk; by left|].
  destruct (absorb e l) as [l1|]; csimpl; [|done].
  intros _. right. by eapply IH.
Qed.

Lemma absorb_None_key e l : absorb e l = None → edge_key e ∉ edge_key <$> l.
Proof.
  induction l as [|o l IH]; csimpl; [intros _; apply not_elem_of_nil|].
  case_decide as Hk; [done|].
  destruct (absorb e l) as [l1|]; csimpl; [done|].
  intros _. rewrite elem_of_cons. intros [?|?]; [congruence|by apply IH].
Qed.

(** Some record of [l] with key [k] has the flag [f] set. *)
Definition flagged (f : ContractorEdgeData → bool) (k : nat * nat * Z * bool) l : Prop :=
  ∃ e, e ∈ l ∧ edge_key e = k ∧ f (data e) = true.

Definition flag_of_or (f : ContractorEdgeData → bool) : Prop :=
  ∀ x y, f (data (or_flags x y)) = f (data x) || f (data y).

Lemma forward_flag_of_or : flag_of_or forward.
Proof. done. Qed.
Lemma backward_flag_of_or : flag_of_or backward.
Proof. done. Qed.

Lemma flagged_cons f k e l :
  flagged f k (e :: l) ↔ (edge_key e = k ∧ f (data e) = true) ∨ flagged f k l.
Proof.
  unfold flagged. split.
  - intros (x & Hx & Hk & Hf). apply elem_of_cons in Hx as [->|Hx]; eauto.
  - intros [[Hk Hf]|(x & Hx & Hk & Hf)].
    + exists e. split; [by left|done].
    + exists x. split; [by right|done].
Qed.

Lemma absorb_flagged f e l l' k :
  flag_of_or f → absorb e l = Some l' → flagged f k l' ↔ flagged f k (e :: l).
Proof.
  intros Hf. revert l'. induction l as [|o l IH]; intros l'; csimpl; [done|].
  case_decide as Hk.
  - intros [= <-]. rewrite !flagged_cons, edge_key_or_flags, Hf, orb_true_iff.
    rewrite <- Hk. tauto.
  - destruct (absorb e l) as [l1|]; csimpl; [|done].
    intros [= <-]. rewrite !flagged_cons, (IH l1), flagged_cons by done. tauto.
Qed.

Lemma merged_keys n l k :
  length l = n → k ∈ edge_key <$> merged n l ↔ k ∈ edge_key <$> l.
Proof.
  revert l. induction n as [|n IH]; intros [|e l]; csimpl; try done.
  intros [= Hl]. destruct (absorb e l) as [l1|] eqn:E.
  - rewrite IH by (by rewrite (absorb_length e l l1)).
    rewrite (absorb_keys e l l1), elem_of_cons by done.
    pose proof (absorb_Some_key _ _ _ E). split; [tauto|]. intros [->|]; done.
  - csimpl. rewrite !elem_of_cons, IH by done. done.
Qed.

Lemma merged_NoDup n l : length l = n → NoDup (edge_key <$> merged n l).
Proof.
  revert l. induction n as [|n IH]; intros [|e l]; csimpl; try done;
    try (intros; apply NoDup_nil_2).
  intros [= Hl]. destruct (absorb e l) as [l1|] eqn:E.
  - apply IH. by rewrite (absorb_length e l l1).
  - csimpl. apply NoDup_cons. split; [|by apply IH].
    rewrite merged_keys by done. by apply absorb_None_key.
Qed.

Lemma merged_flagged f n l k :
  flag_of_or f → length l = n → flagged f k (merged n l) ↔ flagged f k l.
Proof.
  intros Hf. revert l. induction n as [|n IH]; intros [|e l]; csimpl; try done.
  intros [= Hl]. destruct (absorb e l) as [l1|] eqn:E.
  - rewrite IH by (by rewrite (absorb_length e l l1)).
    by apply absorb_flagged.
  - rewrite !flagged_cons, IH by done. done.
Qed.

(** A kept record differs from a record of the input only in its flags. *)
Definition same_but_flags r e : Prop :=
  source r = source e ∧ target r = target e ∧ weight (data r) = weight (data e) ∧
  duration (data r) = duration (data e) ∧ id (data r) = id (data e) ∧
  originalEdges (data r) = originalEdges (data e) ∧ shortcut (data r) = shortcut (data e).

Lemma absorb_origin e l l' r :
  absorb e l = Some l' → r ∈ l' → ∃ o, o ∈ l ∧ same_but_flags r o.
Proof.
  revert l'. induction l as [|o l IH]; intros l'; csimpl; [done|].
  case_decide as Hk.
  - intros [= <-]. rewrite elem_of_cons. intros [->|Hr].
    + exists o. split; [by left|]. by repeat split.
    + exists r. split; [by right|]. by repeat split.
  - destruct (absorb e l) as [l1|]; csimpl; [|done].
    intros [= <-]. rewrite elem_of_cons. intros [->|Hr].
    + exists o. split; [by left|]. by repeat split.
    + destruct (IH l1 eq_refl Hr) as (o' & Ho' & Hs). exists o'. split; [by right|done].
Qed.

Lemma same_but_flags_trans r o e :
  same_but_flags r o → same_but_flags o e → same_but_flags r e.
Proof. unfold same_but_flags. intuition congruence. Qed.

Lemma merged_origin n l r :
  length l = n → r ∈ merged n l → ∃ e, e ∈ l ∧ same_but_flags r e.
Proof.
  revert l. induction n as [|n IH]; intros [|e l]; csimpl; try done;
    try (by intros _ ?%elem_of_nil).
  intros [= Hl]. destruct (absorb e l) as [l1|] eqn:E.
  - intros Hr. destruct (IH l1) as (o & Ho & Hs); [by rewrite (absorb_length e l l1)|done|].
    destruct (absorb_origin _ _ _ _ E Ho) as (o' & Ho' & Hs').
    exists o'. split; [by right|]. eauto using same_but_flags_trans.
  - rewrite elem_of_cons. intros [->|Hr].
    + exists e. split; [by left|]. by repeat split.
    + destruct (IH l Hl Hr) as (o & Ho & Hs). exists o. split; [by right|done].
Qed.

Lemma NoDup_key_inj l r r' :
  NoDup (edge_key <$> l) → r ∈ l → r' ∈ l → edge_key r = edge_key r' → r = r'.
Proof.
  induction l as [|x l IH]; csimpl; [by intros _ ?%elem_of_nil|].
  rewrite NoDup_cons, !elem_of_cons. intros [Hx Hl] [->|Hr] [->|Hr'] Hk; auto.
  - destruct Hx. rewrite Hk. by apply list_elem_of_fmap_2.
  - destruct Hx. rewrite <- Hk. by apply list_elem_of_fmap_2.
Qed.

(** The flags of a kept record are the disjunction of the flags of the
    input records with its key. *)
Lemma merged_flag f n l r :
  flag_of_or f → length l = n → r ∈ merged n l →
  f (data r) = true ↔ flagged f (edge_key r) l.
Proof.
  intros Hf Hl Hr. rewrite <- (merged_flagged f n l) by done. split.
  - intros Hfr. by exists r.
  - intros (r' & Hr' & Hk & Hfr').
    by rewrite (NoDup_key_inj (merged n l) r r') by eauto using merged_NoDup.
Qed.

(** The inner loop on the vector does what [absorb] does on the list of
    the later records. *)
Lemma merge_into_later_absorb count i other v e_i :
  v !! i = Some e_i → count = (length v - other)%nat → (other ≤ length v)%nat →
  merge_into_later count i other v =
    Ok (match absorb e_i (drop other v) with
        | Some l' => (true, take other v ++ l')
        | None => (false, v)
        end).
Proof.
  intros Hi. revert other. induction count as [|count IH]; intros other Hc Ho; csimpl.
  - rewrite drop_ge by lia. done.
  - destruct (lookup_lt_is_Some_2 v other) as [e_o He_o]; [lia|].
    unfold at_index. rewrite He_o, Hi; csimpl.
    rewrite (drop_S _ _ _ He_o); csimpl.
    assert (merge_into_later count i (S other) v =
            Ok (match cons e_o <$> absorb e_i (drop (S other) v) with
                | Some l' => (true, take other v ++ l')
                | None => (false, v)
                end)) as Hnext.
    { rewrite IH by lia. destruct (absorb e_i (drop (S other) v)); csimpl; [|done].
      by rewrite (take_S_r _ _ _ He_o), <- app_assoc. }
    case_decide as Hk.
    + unfold edge_key in Hk. injection Hk as -> -> -> ->.
      rewrite !bool_decide_eq_true_2 by done. csimpl.
      unfold assign_index. rewrite decide_True by (by eapply lookup_lt_Some). csimpl.
      by rewrite insert_take_drop by (by eapply lookup_lt_Some).
    + repeat (case_bool_decide; csimpl; [|done]).
      destruct Hk. unfold edge_key. congruence.
Qed.

(** The outer loop compacts in place what [merged] computes. *)
Lemma merge_duplicates_merged count i size v :
  count = (length v - i)%nat → (i ≤ length v)%nat → (size ≤ i)%nat →
  ∃ size' v',
    merge_duplicates count (length v) i size v = Ok (size', v') ∧
    take size' v' = take size v ++ merged count (drop i v).
Proof.
  revert i size v. induction count as [|count IH]; intros i size v Hc Hi Hs; csimpl.
  - exists size, v. by rewrite app_nil_r.
  - destruct (lookup_lt_is_Some_2 v i) as [e_i He_i]; [lia|].
    rewrite (merge_into_later_absorb _ i (i + 1) v e_i) by (done || lia).
    rewrite (drop_S _ _ _ He_i). replace (i + 1)%nat with (S i) by lia.
    destruct (absorb e_i (drop (S i) v)) as [l1|] eqn:E; csimpl.
    + pose proof (absorb_length _ _ _ E) as Hl1. rewrite length_drop in Hl1.
      set (v1 := take (S i) v ++ l1).
      assert (length v1 = length v) as Hv1.
      { subst v1. rewrite length_app, length_take. lia. }
      rewrite <- Hv1.
      destruct (IH (S i) size v1) as (size' & v' & -> & Ht); try lia.
      exists size', v'. split; [done|]. rewrite Ht. subst v1.
      rewrite take_app_le by (rewrite length_take; lia).
      rewrite take_take, Nat.min_l by lia.
      rewrite drop_app_length' by (rewrite length_take; lia). done.
    + unfold at_index. rewrite He_i. csimpl.
      unfold assign_index. rewrite decide_True by lia. csimpl.
      set (v1 := <[size := e_i]> v).
      assert (length v1 = length v) as Hv1 by apply length_insert.
      rewrite <- Hv1.
      destruct (IH (S i) (S size) v1) as (size' & v' & -> & Ht); try lia.
      exists size', v'. split; [done|]. rewrite Ht. subst v1.
      rewrite drop_insert_lt by lia.
      rewrite take_S_r with (x := e_i) by (apply list_lookup_insert_eq; lia).
      rewrite take_insert_ge by lia. by rewrite <- app_assoc.
Qed.

End merge.

(** ** The structure of one turn of the loop over the incoming edges *)

Section turn_states.
Context {D : Type} `{!ContractorDijkstraOps D}.
Implicit Types (m : @Mem D) (node source : NodeID).

(** The state after lines 140-145. *)
Definition counted (sim : bool) (in_data : ContractorEdgeData) m : result Mem :=
  if sim then st ← assert_stats m; Ok (set_stats (count_deleted in_data st) m) else Ok m.

(** The state after lines 151-152. *)
Definition seeded source m : Mem :=
  set_dijkstra (Insert source 0 ContractorHeapData_default (Clear (dijkstra m))) m.

(** The state after lines 226-236. *)
Definition searched (sim : bool) node (max_weight : Z) (number_of_targets : nat) m : Mem :=
  set_dijkstra
    (Run number_of_targets
       (if sim then SIMULATION_SEARCH_SPACE_SIZE else FULL_SEARCH_SPACE_SIZE)
       max_weight node (graph m) (dijkstra m)) m.

End turn_states.

Ltac step_cases :=
  unfold register_target, shortcut_if_needed, counted, read_node_weight, write_node_weight,
    assert_stats, insert_shortcuts, emplace_back, set_stats, set_dijkstra,
    set_node_weights, set_inserted_edges in *;
  repeat (case_match; simplify_eq/=; try done);
  repeat match goal with
    | H : negb _ = false |- _ => apply negb_false_iff in H
    | H : negb _ = true |- _ => apply negb_true_iff in H
    | H : bool_decide _ = true |- _ => apply bool_decide_eq_true_1 in H
    | H : bool_decide _ = false |- _ => apply bool_decide_eq_false_1 in H
    end.

Section in_edge.
Context {D : Type} `{!ContractorDijkstraOps D}.
Variable INVALID_EDGE_WEIGHT : EdgeWeight.
Implicit Types (m : @Mem D) (node source : NodeID) (range : list GraphEdge).

Lemma contract_in_edge_self sim node range e m :
  GetTarget e = node → contract_in_edge INVALID_EDGE_WEIGHT sim node range e m = Ok m.
Proof. intros. unfold contract_in_edge. by rewrite bool_decide_eq_true_2. Qed.

Lemma contract_in_edge_unfold sim node range e m :
  GetTarget e ≠ node →
  contract_in_edge INVALID_EDGE_WEIGHT sim node range e m =
    m1 ← counted sim (GetEdgeData e) m;
    if negb (backward (GetEdgeData e)) then Ok m1 else
    s ← for_each (register_target INVALID_EDGE_WEIGHT sim node (GetTarget e) (GetEdgeData e))
          range (seeded (GetTarget e) m1, 0, 0%nat);
    for_each (shortcut_if_needed sim node (GetTarget e) (GetEdgeData e)) range
      (searched sim node s.1.2 s.2 s.1.1).
Proof.
  intros Hne. unfold contract_in_edge, counted.
  rewrite bool_decide_eq_false_2 by done.
  destruct (if sim then _ else _) as [m1| |]; csimpl; try done.
  destruct (backward (GetEdgeData e)); csimpl; [|done].
  unfold seeded, searched. simpl.
  destruct (for_each _ range _) as [[[m3 mw] k]| |]; csimpl; try done.
  by destruct sim.
Qed.

Lemma contract_in_edge_not_backward sim node range e m :
  GetTarget e ≠ node → backward (GetEdgeData e) = false →
  contract_in_edge INVALID_EDGE_WEIGHT sim node range e m = counted sim (GetEdgeData e) m.
Proof.
  intros Hne Hb. unfold contract_in_edge, counted.
  rewrite bool_decide_eq_false_2 by done.
  destruct (if sim then _ else _); csimpl; try done. by rewrite Hb.
Qed.

Lemma contract_in_edge_backward sim node range e m m1 :
  GetTarget e ≠ node → backward (GetEdgeData e) = true →
  counted sim (GetEdgeData e) m = Ok m1 →
  contract_in_edge INVALID_EDGE_WEIGHT sim node range e m =
    s ← for_each (register_target INVALID_EDGE_WEIGHT sim node (GetTarget e) (GetEdgeData e))
          range (seeded (GetTarget e) m1, 0, 0%nat);
    for_each (shortcut_if_needed sim node (GetTarget e) (GetEdgeData e)) range
      (searched sim node s.1.2 s.2 s.1.1).
Proof.
  intros Hne Hb Hc. unfold contract_in_edge, counted in *.
  rewrite bool_decide_eq_false_2 by done.
  rewrite Hc. csimpl. rewrite Hb. csimpl.
  unfold seeded, searched. simpl.
  destruct (for_each _ range _) as [[[m3 mw] k]| |]; csimpl; try done.
  by destruct sim.
Qed.

(** The runs of one turn that complete. *)
Lemma contract_in_edge_inv sim node range e m m' :
  contract_in_edge INVALID_EDGE_WEIGHT sim node range e m = Ok m' →
  (GetTarget e = node ∧ m' = m) ∨
  (GetTarget e ≠ node ∧ ∃ m1, counted sim (GetEdgeData e) m = Ok m1 ∧
     ((backward (GetEdgeData e) = false ∧ m' = m1) ∨
      (backward (GetEdgeData e) = true ∧ ∃ m3 mw k,
         for_each (register_target INVALID_EDGE_WEIGHT sim node (GetTarget e) (GetEdgeData e))
           range (seeded (GetTarget e) m1, 0, 0%nat) = Ok (m3, mw, k) ∧
         for_each (shortcut_if_needed sim node (GetTarget e) (GetEdgeData e)) range
           (searched sim node mw k m3) = Ok m'))).
Proof.
  intros H. destruct (decide (GetTarget e = node)) as [Hself|Hself].
  - rewrite contract_in_edge_self in H by done. left. by injection H.
  - right. split; [done|].
    destruct (backward (GetEdgeData e)) eqn:Hb.
    + destruct (counted sim (GetEdgeData e) m) as [m1| |] eqn:Hc.
      * rewrite (contract_in_edge_backward _ _ _ _ _ m1) in H by done.
        destruct (for_each _ range _) as [[[m3 mw] k]| |] eqn:Hr; csimpl in *; try done.
        exists m1. split; [done|]. right. split; [done|]. by exists m3, mw, k.
      * unfold contract_in_edge, counted in *.
        rewrite bool_decide_eq_false_2 in H by done. by rewrite Hc in H.
      * unfold contract_in_edge, counted in *.
        rewrite bool_decide_eq_false_2 in H by done. by rewrite Hc in H.
    + rewrite contract_in_edge_not_backward in H by done.
      exists m'. split; [done|]. by left.
Qed.

(** A relation kept by the steps of the two inner loops is kept from the
    state after the deletion count to the end of the turn. *)
Lemma inner_loops_keep (R : Mem → Mem → Prop) sim node source in_data range m1 m3 mw k m' :
  (∀ m, R m m) → (∀ m1 m2 m3, R m1 m2 → R m2 m3 → R m1 m3) →
  (∀ m d, R m (set_dijkstra d m)) →
  (∀ out s s', out ∈ range →
     register_target INVALID_EDGE_WEIGHT sim node source in_data out s = Ok s' →
     R s.1.1 s'.1.1) →
  (∀ out m m', out ∈ range →
     shortcut_if_needed sim node source in_data out m = Ok m' → R m m') →
  for_each (register_target INVALID_EDGE_WEIGHT sim node source in_data)
    range (seeded source m1, 0, 0%nat) = Ok (m3, mw, k) →
  for_each (shortcut_if_needed sim node source in_data) range
    (searched sim node mw k m3) = Ok m' →
  R m1 m'.
Proof.
  intros Hrefl Htrans Hd Hreg Hshort Hr Hs.
  eapply Htrans; [apply (Hd m1)|]. fold (seeded source m1).
  eapply Htrans.
  { eapply (for_each_invariant (λ s, R (seeded source m1) s.1.1)) in Hr;
      [exact Hr|apply Hrefl|].
    intros out s s' Hout Hs1 Hstep. eapply Htrans; [exact Hs1|]. by eapply Hreg. }
  eapply Htrans; [apply (Hd m3)|]. fold (searched sim node mw k m3).
  eapply (for_each_invariant (λ m', R (searched sim node mw k m3) m')) in Hs;
    [exact Hs|apply Hrefl|].
  intros out m4 m5 Hout Hm4 Hstep. eapply Htrans; [exact Hm4|]. by eapply Hshort.
Qed.

(** A relation kept by the steps of a turn is kept by the turn. *)
Lemma contract_in_edge_keeps (R : Mem → Mem → Prop) sim node range e m m' :
  (∀ m, R m m) → (∀ m1 m2 m3, R m1 m2 → R m2 m3 → R m1 m3) →
  (∀ m d, R m (set_dijkstra d m)) →
  (∀ m m1, GetTarget e ≠ node → counted sim (GetEdgeData e) m = Ok m1 → R m m1) →
  (∀ out s s', out ∈ range → backward (GetEdgeData e) = true → GetTarget e ≠ node →
     register_target INVALID_EDGE_WEIGHT sim node (GetTarget e) (GetEdgeData e) out s = Ok s' →
     R s.1.1 s'.1.1) →
  (∀ out m m', out ∈ range → backward (GetEdgeData e) = true → GetTarget e ≠ node →
     shortcut_if_needed sim node (GetTarget e) (GetEdgeData e) out m = Ok m' → R m m') →
  contract_in_edge INVALID_EDGE_WEIGHT sim node range e m = Ok m' → R m m'.
Proof.
  intros Hrefl Htrans Hd Hcount Hreg Hshort H.
  apply contract_in_edge_inv in H
    as [[_ ->]|(Hne & m1 & Hc & [[_ ->]|(Hb & m3 & mw & k & Hr & Hs)])]; eauto.
  eapply Htrans; [by eapply Hcount|].
  eapply inner_loops_keep; eauto.
Qed.

(** ** Effects of the single steps *)

(** The first inner loop writes [node_weights] only at the source, and
    only at a forward edge that leads to the source. *)
Lemma register_target_weights sim node source in_data out s s' :
  register_target INVALID_EDGE_WEIGHT sim node source in_data out s = Ok s' →
  node_weights s'.1.1 = node_weights s.1.1 ∨
  (forward (GetEdgeData out) = true ∧ GetTarget out = source ∧
   ∃ w, node_weights s'.1.1 = <[source := w]> (node_weights s.1.1)).
Proof.
  destruct s as [[m mw] k]. intros H. step_cases; try (by left);
    right; (split; [done|]); (split; [done|]); eauto.
Qed.

Lemma shortcut_if_needed_weights sim node source in_data out m m' :
  shortcut_if_needed sim node source in_data out m = Ok m' →
  node_weights m' = node_weights m.
Proof. intros H. step_cases. Qed.

Lemma counted_weights sim in_data m m' :
  counted sim in_data m = Ok m' → node_weights m' = node_weights m.
Proof. intros H. step_cases. Qed.






(** No step fails an assertion while [stats] points to a record, and no
    step of the real mode does. *)
Definition has_stats (sim : bool) m : Prop := sim = true → is_Some (stats m).

Lemma register_target_no_assert sim node source in_data out s :
  has_stats sim s.1.1 →
  register_target INVALID_EDGE_WEIGHT sim node source in_data out s ≠ AssertionFailed.
Proof.
  destruct s as [[m mw] k]. unfold has_stats. simpl. intros Hst H.
  step_cases; destruct Hst as [? ?]; done.
Qed.

Lemma register_target_has_stats sim node source in_data out s s' :
  register_target INVALID_EDGE_WEIGHT sim node source in_data out s = Ok s' →
  has_stats sim s.1.1 → has_stats sim s'.1.1.
Proof.
  destruct s as [[m mw] k]. unfold has_stats. intros H Hst Hsim.
  destruct (Hst Hsim) as [st Hstats]. clear Hst. step_cases; eauto.
Qed.

Lemma shortcut_if_needed_no_assert sim node source in_data out m :
  has_stats sim m → shortcut_if_needed sim node source in_data out m ≠ AssertionFailed.
Proof.
  unfold has_stats. intros Hst H. step_cases; destruct Hst as [? ?]; done.
Qed.

Lemma shortcut_if_needed_has_stats sim node source in_data out m m' :
  shortcut_if_needed sim node source in_data out m = Ok m' →
  has_stats sim m → has_stats sim m'.
Proof.
  unfold has_stats. intros H Hst Hsim.
  destruct (Hst Hsim) as [st Hstats]. clear Hst. step_cases; eauto.
Qed.

Lemma counted_has_stats sim in_data m m' :
  counted sim in_data m = Ok m' → has_stats sim m → has_stats sim m'.
Proof.
  unfold has_stats. intros H Hst Hsim.
  destruct (Hst Hsim) as [st Hstats]. clear Hst. step_cases; eauto.
Qed.

Lemma contract_in_edge_has_stats sim node range e m m' :
  contract_in_edge INVALID_EDGE_WEIGHT sim node range e m = Ok m' →
  has_stats sim m → has_stats sim m'.
Proof.
  apply (contract_in_edge_keeps (λ m m', has_stats sim m → has_stats sim m')); eauto.
  - intros; eauto using counted_has_stats.
  - intros out s s' _ _ _. apply register_target_has_stats.
  - intros out m1 m2 _ _ _. apply shortcut_if_needed_has_stats.
Qed.

Lemma contract_in_edge_no_assert sim node range e m :
  has_stats sim m →
  contract_in_edge INVALID_EDGE_WEIGHT sim node range e m ≠ AssertionFailed.
Proof.
  intros Hst.
  destruct (decide (GetTarget e = node)) as [Hself|Hself];
    [by rewrite contract_in_edge_self|].
  destruct (counted sim (GetEdgeData e) m) as [m1| |] eqn:Hc.
  - pose proof (counted_has_stats _ _ _ _ Hc Hst) as Hst1.
    destruct (backward (GetEdgeData e)) eqn:Hb;
      [|by rewrite contract_in_edge_not_backward, Hc].
    rewrite (contract_in_edge_backward _ _ _ _ _ m1) by done.
    destruct (for_each _ range (seeded _ _, _, _)) as [s| |] eqn:Hr; csimpl; try done.
    + apply (for_each_no_assert (has_stats sim)).
      * apply (for_each_invariant (λ s, has_stats sim s.1.1)) in Hr; [exact Hr|exact Hst1|].
        intros out s1 s2 _ Hs1 Hstep. by eapply register_target_has_stats.
      * intros out m2 _. apply shortcut_if_needed_no_assert.
      * intros out m2 m3 _ Hm2 Hstep. by eapply shortcut_if_needed_has_stats.
    + exfalso. revert Hr.
      apply (for_each_no_assert (λ s, has_stats sim s.1.1)); [exact Hst1| |].
      * intros out s1 _. apply register_target_no_assert.
      * intros out s1 s2 _ Hs1 Hstep. by eapply register_target_has_stats.
  - exfalso. unfold counted, assert_stats, has_stats in *. destruct sim; [|done].
    destruct (Hst eq_refl) as [st Hstats]. by rewrite Hstats in Hc.
  - unfold contract_in_edge, counted in *.
    rewrite bool_decide_eq_false_2 by done. by rewrite Hc.
Qed.

Lemma merge_into_later_no_assert count i other v :
  merge_into_later count i other v ≠ AssertionFailed.
Proof.
  revert other. induction count as [|count IH]; intros other; simpl; [done|].
  unfold at_index. destruct (v !! other); csimpl; [|done].
  destruct (v !! i); csimpl; [|done].
  unfold assign_index. repeat (case_match; try done).
Qed.

Lemma merge_duplicates_no_assert count iend i size v :
  merge_duplicates count iend i size v ≠ AssertionFailed.
Proof.
  revert i size v. induction count as [|count IH]; intros i size v; simpl; [done|].
  pose proof (merge_into_later_no_assert (iend - (i + 1)) i (i + 1) v).
  destruct (merge_into_later _ _ _ _) as [[found v1]| |]; csimpl; try done.
  destruct found; csimpl; [done|].
  unfold at_index, assign_index. destruct (v1 !! i); csimpl; [|done].
  case_decide; csimpl; done.
Qed.

End in_edge.

(** ** ContractNode: the claims that hold for every witness search *)

Section ContractNode_properties.
Context {D : Type} `{!ContractorDijkstraOps D}.
Variable INVALID_EDGE_WEIGHT : EdgeWeight.
Implicit Types (m : @Mem D) (node source : NodeID) (range : list GraphEdge).

(** The outcome of ContractNode in terms of the loop over the incoming
    edges. *)
Lemma ContractNode_simulation node m :
  ContractNode INVALID_EDGE_WEIGHT true node m =
  for_each (contract_in_edge INVALID_EDGE_WEIGHT true node (GetAdjacentEdgeRange (graph m) node))
    (GetAdjacentEdgeRange (graph m) node) m.
Proof.
  unfold ContractNode, ContractNode_range. by destruct (for_each _ _ m).
Qed.

Lemma ContractNode_real node m m1 raw :
  for_each (contract_in_edge INVALID_EDGE_WEIGHT false node (GetAdjacentEdgeRange (graph m) node))
    (GetAdjacentEdgeRange (graph m) node) m = Ok m1 →
  inserted_edges m1 = inserted_edges m ++ raw →
  ContractNode INVALID_EDGE_WEIGHT false node m =
  Ok (set_inserted_edges (inserted_edges m ++ merged (length raw) raw) m1).
Proof.
  intros Hloop Hraw. unfold ContractNode, ContractNode_range.
  rewrite Hloop. csimpl. rewrite Hraw.
  destruct (merge_duplicates_merged (length raw) (length (inserted_edges m))
              (length (inserted_edges m)) (inserted_edges m ++ raw))
    as (size' & v' & Hmerge & Htake);
    [rewrite length_app; lia | rewrite length_app; lia | done |].
  rewrite length_app.
  replace (length (inserted_edges m) + length raw - length (inserted_edges m))%nat
    with (length raw) by lia.
  rewrite length_app in Hmerge. rewrite Hmerge. csimpl.
  rewrite Htake, take_app_length, drop_app_length. done.
Qed.

(** C3.  After real-mode ContractNode, the records it added to
    [inserted_edges] have pairwise different (source, target, weight,
    shortcut) keys: the records [raw] appended by the loop over the
    incoming edges are replaced by records [kept], one for each key of
    [raw], each equal to a record of [raw] but for its flags, and with
    forward and backward flags the disjunction of the flags of the
    records of [raw] with its key.  The buffer before the call is kept. *)
Theorem C3_duplicate_shortcuts_merged node m :
  weights_cover node (GetAdjacentEdgeRange (graph m) node) m →
  ∃ m1 raw kept,
    for_each (contract_in_edge INVALID_EDGE_WEIGHT false node (GetAdjacentEdgeRange (graph m) node))
      (GetAdjacentEdgeRange (graph m) node) m = Ok m1 ∧
    inserted_edges m1 = inserted_edges m ++ raw ∧
    ContractNode INVALID_EDGE_WEIGHT false node m =
      Ok (set_inserted_edges (inserted_edges m ++ kept) m1) ∧
    NoDup (edge_key <$> kept) ∧
    (∀ e, e ∈ raw → edge_key e ∈ edge_key <$> kept) ∧
    (∀ r, r ∈ kept →
       (∃ e, e ∈ raw ∧ same_but_flags r e) ∧
       (forward (data r) = true ↔ flagged forward (edge_key r) raw) ∧
       (backward (data r) = true ↔ flagged backward (edge_key r) raw)).
Proof.
  intros [Hnode Hrange].
  destruct (contract_in_edges_total INVALID_EDGE_WEIGHT false node
              (GetAdjacentEdgeRange (graph m) node) (GetAdjacentEdgeRange (graph m) node) m)
    as (m1 & Hloop & F); [done|done|done|].
  destruct F as (_ & _ & _ & _ & _ & raw & Hraw).
  exists m1, raw, (merged (length raw) raw).
  split; [done|]. split; [done|]. split.
  - by apply ContractNode_real.
  - split; [by apply merged_NoDup|]. split.
    + intros e He. apply merged_keys; [done|]. by apply list_elem_of_fmap_2.
    + intros r Hr. split; [by eapply merged_origin|].
      split; [apply (merged_flag forward (length raw)) | apply (merged_flag backward (length raw))];
        done || apply forward_flag_of_or || apply backward_flag_of_or.
Qed.

(** C9.  ContractNode gives the same outcome (statistics, witness-search
    state, edge buffer, node weights, or the same failure) as it would if
    the adjacent edges of the node that lead back to the node were not in
    its edge range: these edges take no part in the deletion counts, in
    the targets registered, or in the shortcuts. *)
Theorem C9_self_loops_skipped (RUNSIMULATION : bool) node m :
  ContractNode INVALID_EDGE_WEIGHT RUNSIMULATION node m =
  ContractNode_range INVALID_EDGE_WEIGHT RUNSIMULATION node
    (filter (λ e, GetTarget e ≠ node) (GetAdjacentEdgeRange (graph m) node)) m.
Proof.
  unfold ContractNode.
  generalize (GetAdjacentEdgeRange (graph m) node). intros range.
  assert (∀ in_edge m',
    contract_in_edge INVALID_EDGE_WEIGHT RUNSIMULATION node range in_edge m' =
    contract_in_edge INVALID_EDGE_WEIGHT RUNSIMULATION node
      (filter (λ e, GetTarget e ≠ node) range) in_edge m')
    as Hinner.
  { intros in_edge m'. unfold contract_in_edge.
    case_bool_decide; [done|].
    destruct (if RUNSIMULATION then _ else _) as [m1| |]; csimpl; try done.
    destruct (backward (GetEdgeData in_edge)); csimpl; [|done].
    rewrite (for_each_filter (λ e, GetTarget e ≠ node)
               (register_target INVALID_EDGE_WEIGHT _ _ _ _)).
    - destruct (for_each _ range _) as [[[m2 mw] k]| |]; csimpl; try done.
      rewrite (for_each_filter (λ e, GetTarget e ≠ node) (shortcut_if_needed _ _ _ _)); [done|].
      intros out m3 Hout%dec_stable. unfold shortcut_if_needed.
      destruct (forward (GetEdgeData out)); csimpl; [|done].
      by rewrite bool_decide_eq_true_2.
    - intros out [[m2 mw] k] Hout%dec_stable.
      unfold register_target.
      destruct (forward (GetEdgeData out)); csimpl; [|done].
      by rewrite bool_decide_eq_true_2. }
  unfold ContractNode_range.
  rewrite (for_each_ext _ _ range m (λ x s _, Hinner x s)).
  rewrite (for_each_filter (λ e, GetTarget e ≠ node)); [done|].
  intros in_edge m' Hin%dec_stable.
  unfold contract_in_edge.
  by rewrite bool_decide_eq_true_2.
Qed.

(** A node other than the contracted one that is the far end both of a
    backward-traversable and of a forward-traversable adjacent edge: the
    source of a loop through the contracted node. *)
Definition loop_source node range (k : nat) : Prop :=
  k ≠ node ∧
  ∃ in_edge out_edge, in_edge ∈ range ∧ out_edge ∈ range ∧
    GetTarget in_edge = k ∧ backward (GetEdgeData in_edge) = true ∧
    GetTarget out_edge = k ∧ forward (GetEdgeData out_edge) = true.

Definition weights_differ_at_loops node range m m' : Prop :=
  ∀ k, node_weights m' !! k = node_weights m !! k ∨ loop_source node range k.

Lemma weights_differ_at_loops_trans node range m1 m2 m3 :
  weights_differ_at_loops node range m1 m2 → weights_differ_at_loops node range m2 m3 →
  weights_differ_at_loops node range m1 m3.
Proof.
  intros H1 H2 k. destruct (H1 k) as [E1|?], (H2 k) as [E2|?]; auto.
  left. congruence.
Qed.

Lemma contract_in_edge_weights sim node range e m m' :
  e ∈ range →
  contract_in_edge INVALID_EDGE_WEIGHT sim node range e m = Ok m' →
  weights_differ_at_loops node range m m'.
Proof.
  intros He.
  apply (contract_in_edge_keeps INVALID_EDGE_WEIGHT (weights_differ_at_loops node range)).
  - intros m1 k. by left.
  - apply weights_differ_at_loops_trans.
  - intros m1 d k. by left.
  - intros m1 m2 _ Hc k. left. by rewrite (counted_weights _ _ _ _ Hc).
  - intros out s s' Hout Hb Hne Hstep k.
    apply register_target_weights in Hstep as [->|(Hf & Ht & w & ->)]; [by left|].
    destruct (decide (k = GetTarget e)) as [->|Hk].
    + right. split; [done|]. by exists e, out.
    + left. by rewrite list_lookup_insert_ne.
  - intros out m1 m2 _ _ _ Hstep k. left.
    by rewrite (shortcut_if_needed_weights _ _ _ _ _ _ _ Hstep).
Qed.

(** C4.  A simulation run of ContractNode that is given a statistics
    record completes and leaves the graph, the [inserted_edges] buffer and
    the neighbour buffer as they were; [node_weights] keeps its size and
    changes at most at the sources of loops through the node.  (The
    statistics record and the scratch state of the witness search are
    what else it writes.) *)
Theorem C4_simulation_mutates_no_graph node m :
  weights_cover node (GetAdjacentEdgeRange (graph m) node) m →
  is_Some (stats m) →
  ∃ m', ContractNode INVALID_EDGE_WEIGHT true node m = Ok m' ∧
    graph m' = graph m ∧
    inserted_edges m' = inserted_edges m ∧
    neighbours m' = neighbours m ∧
    length (node_weights m') = length (node_weights m) ∧
    ∀ k, node_weights m' !! k = node_weights m !! k ∨
         loop_source node (GetAdjacentEdgeRange (graph m) node) k.
Proof.
  intros [Hnode Hrange] Hstats.
  destruct (contract_in_edges_total INVALID_EDGE_WEIGHT true node
              (GetAdjacentEdgeRange (graph m) node) (GetAdjacentEdgeRange (graph m) node) m)
    as (m' & Hloop & HG & HN & HL & _ & HE & _); [done|done|done|].
  exists m'. unfold ContractNode, ContractNode_range. rewrite Hloop. csimpl.
  repeat (split; [done|]).
  eapply (for_each_invariant
            (weights_differ_at_loops node (GetAdjacentEdgeRange (graph m) node) m)) in Hloop;
    [exact Hloop| by left |].
  intros e m1 m2 He H1 Hstep.
  eapply weights_differ_at_loops_trans; [exact H1|]. by eapply contract_in_edge_weights.
Qed.

(** C7.  In simulation mode without a statistics record, ContractNode
    fails the assertion [stats != nullptr] as soon as the node has an
    adjacent edge whose far end is not the node; with a statistics record,
    and in real mode with or without one, no assertion of ContractNode
    fails. *)
Theorem C7_missing_stats_fails_assertion node m :
  (stats m = None →
   (∃ e, e ∈ GetAdjacentEdgeRange (graph m) node ∧ GetTarget e ≠ node) →
   ContractNode INVALID_EDGE_WEIGHT true node m = AssertionFailed) ∧
  (∀ RUNSIMULATION : bool,
     (RUNSIMULATION = true → is_Some (stats m)) →
     ContractNode INVALID_EDGE_WEIGHT RUNSIMULATION node m ≠ AssertionFailed).
Proof.
  unfold ContractNode, ContractNode_range.
  generalize (GetAdjacentEdgeRange (graph m) node). intros range.
  split.
  - intros Hnone Hex.
    enough (∀ ins, (∃ e, e ∈ ins ∧ GetTarget e ≠ node) →
              for_each (contract_in_edge INVALID_EDGE_WEIGHT true node range) ins m
              = AssertionFailed) as Hins by (by rewrite Hins).
    clear Hex. intros ins (e & He & Hne).
    induction ins as [|x ins IH]; [by apply elem_of_nil in He|]. simpl.
    destruct (decide (GetTarget x = node)) as [Hx|Hx].
    + rewrite contract_in_edge_self by done. csimpl.
      apply IH. apply elem_of_cons in He as [->|He]; done.
    + unfold contract_in_edge. rewrite bool_decide_eq_false_2 by done.
      unfold assert_stats. rewrite Hnone. done.
  - intros sim Hst.
    destruct (for_each _ range m) as [m1| |] eqn:Hloop; csimpl; try done.
    + destruct sim; csimpl; [done|].
      pose proof (merge_duplicates_no_assert
                    (length (inserted_edges m1) - length (inserted_edges m))
                    (length (inserted_edges m1)) (length (inserted_edges m))
                    (length (inserted_edges m)) (inserted_edges m1)).
      destruct (merge_duplicates _ _ _ _ _) as [[size v]| |]; csimpl; done.
    + exfalso. revert Hloop. apply (for_each_no_assert (has_stats sim)); [exact Hst| |].
      * intros e m1 _. apply contract_in_edge_no_assert.
      * intros e m1 m2 _ H1 Hstep. by eapply contract_in_edge_has_stats.
Qed.





(** The two records of a shortcut from [source] to [target] through
    [node], for the incoming edge [in_data] and the outgoing edge
    [out_data]. *)
Definition shortcut_pair node (src tgt : NodeID) (in_data out_data : ContractorEdgeData)
  : list ContractorEdge :=
  [ {| source := src; target := tgt;
       data := {| weight := EdgeWeight_add (weight in_data) (weight out_data);
                  duration := EdgeWeight_add (duration in_data) (duration out_data);
                  id := node;
                  originalEdges := originalEdges in_data + originalEdges out_data;
                  shortcut := true; forward := true; backward := false |} |};
    {| source := tgt; target := src;
       data := {| weight := EdgeWeight_add (weight in_data) (weight out_data);
                  duration := EdgeWeight_add (duration in_data) (duration out_data);
                  id := node;
                  originalEdges := originalEdges in_data + originalEdges out_data;
                  shortcut := true; forward := false; backward := true |} |} ].

Lemma insert_shortcuts_pair node src tgt in_data out_data m :
  insert_shortcuts node src tgt in_data out_data
    (EdgeWeight_add (weight in_data) (weight out_data)) m =
  set_inserted_edges (inserted_edges m ++ shortcut_pair node src tgt in_data out_data) m.
Proof.
  unfold insert_shortcuts, emplace_back, set_inserted_edges, shortcut_pair, ContractorEdge_new.
  simpl. rewrite <- app_assoc. simpl.
  by rewrite (Z.add_comm (originalEdges out_data)).
Qed.

(** What the second inner loop appends in real mode for one outgoing
    edge, given the state [d] of the witness search after [Run]. *)
Definition shortcuts_for node src (in_data : ContractorEdgeData) (d : D) (out : GraphEdge)
  : list ContractorEdge :=
  if bool_decide (forward (GetEdgeData out) = true ∧ GetTarget out ≠ node ∧
                  EdgeWeight_add (weight in_data) (weight (GetEdgeData out))
                  < GetKey d (GetTarget out))
  then shortcut_pair node src (GetTarget out) in_data (GetEdgeData out)
  else [].

Lemma set_inserted_edges_same m : set_inserted_edges (inserted_edges m) m = m.
Proof. by destruct m. Qed.

Lemma shortcut_if_needed_real node src in_data out m :
  shortcut_if_needed false node src in_data out m =
  Ok (set_inserted_edges (inserted_edges m ++ shortcuts_for node src in_data (dijkstra m) out) m).
Proof.
  unfold shortcut_if_needed, shortcuts_for.
  destruct (forward (GetEdgeData out)) eqn:Hf; csimpl;
    repeat case_bool_decide; csimpl;
    try (by rewrite app_nil_r, set_inserted_edges_same);
    try (by rewrite insert_shortcuts_pair);
    exfalso; intuition congruence.
Qed.

Lemma shortcuts_real node src in_data range m :
  for_each (shortcut_if_needed false node src in_data) range m =
  Ok (set_inserted_edges
        (inserted_edges m ++ flat_map (shortcuts_for node src in_data (dijkstra m)) range) m).
Proof.
  revert m. induction range as [|out range IH]; intros m; simpl.
  - by rewrite app_nil_r, set_inserted_edges_same.
  - rewrite shortcut_if_needed_real. csimpl. rewrite IH. simpl.
    unfold set_inserted_edges. simpl. by rewrite <- app_assoc.
Qed.

(** What the first inner loop does at a forward edge that leads back to
    the source: the test of line 172 reads the weight of the contracted
    node, the assignments of lines 181 and 192 write the weight of the
    source. *)
Lemma register_target_loop sim node src in_data out m mw k w :
  forward (GetEdgeData out) = true → GetTarget out = src → src ≠ node →
  node_weights m !! node = Some w →
  is_Some (node_weights m !! src) →
  register_target INVALID_EDGE_WEIGHT sim node src in_data out (m, mw, k) =
    if bool_decide (EdgeWeight_add (weight in_data) (weight (GetEdgeData out)) < w) then
      if sim then
        st ← assert_stats m;
        Ok (set_stats (count_added in_data (GetEdgeData out) st)
              (set_node_weights
                 (<[src := EdgeWeight_add
                             (EdgeWeight_add (weight in_data) (weight (GetEdgeData out))) 1]>
                    (node_weights m)) m),
            mw, k)
      else
        Ok (insert_shortcuts node src src in_data (GetEdgeData out)
              (EdgeWeight_add (weight in_data) (weight (GetEdgeData out)))
              (set_node_weights
                 (<[src := EdgeWeight_add (weight in_data) (weight (GetEdgeData out))]>
                    (node_weights m)) m),
            mw, k)
    else Ok (m, mw, k).
Proof.
  intros Hf Ht Hne Hw [ws Hws].
  unfold register_target, read_node_weight, write_node_weight, assert_stats.
  rewrite Hf, Ht. csimpl.
  rewrite bool_decide_eq_false_2 by done.
  rewrite bool_decide_eq_true_2 by done.
  rewrite Hw. csimpl. case_bool_decide; [|done].
  destruct sim; rewrite Hws; csimpl; done.
Qed.

End ContractNode_properties.

(** ** The calls ContractNode makes to the witness search

    The calls are observed on [Logged D]: the witness search [D] together
    with the list of the calls made to it.  Apart from that list a run on
    [Logged D] is the run on [D] ([ContractNode_erase]). *)

#[global] Instance Logged_laws (D : Type) `{!ContractorDijkstraOps D}
  `{!ContractorDijkstraLaws D} : ContractorDijkstraLaws (Logged D).
Proof.
  split.
  - intros d n. simpl. apply WasInserted_Clear.
  - intros d n w hd n'. simpl. apply WasInserted_Insert.
Qed.

Section search_state.
#[local] Arguments register_target : simpl never.
Context {D : Type} `{!ContractorDijkstraOps D}.
Variable INVALID_EDGE_WEIGHT : EdgeWeight.
Implicit Types (m : @Mem D) (node src : NodeID) (range : list GraphEdge).

(** An outgoing edge whose target is registered as a goal of the search:
    traversable forward, to a node other than the contracted node and the
    source. *)
Definition candidate node src (out : GraphEdge) : Prop :=
  forward (GetEdgeData out) = true ∧ GetTarget out ≠ node ∧ GetTarget out ≠ src.

(** The path weights of the candidates: [in.weight + out.weight], added as
    [EdgeWeight]. *)
Definition candidate_weights node src (in_data : ContractorEdgeData) range : list Z :=
  (λ out, EdgeWeight_add (weight in_data) (weight (GetEdgeData out)))
    <$> filter (candidate node src) range.

(** [Insert(target, INVALID_EDGE_WEIGHT, ContractorHeapData{0, true})] for
    each of [targets] in turn. *)
Definition register_all (targets : list NodeID) (d : D) : D :=
  foldl (λ d t, Insert t INVALID_EDGE_WEIGHT (mkContractorHeapData 0 true) d) d targets.

Lemma register_target_search sim node src in_data out m mw k m' mw' k' :
  register_target INVALID_EDGE_WEIGHT sim node src in_data out (m, mw, k) = Ok (m', mw', k') →
  if decide (candidate node src out)
  then mw' = Z.max mw (EdgeWeight_add (weight in_data) (weight (GetEdgeData out))) ∧
       if WasInserted (dijkstra m) (GetTarget out)
       then dijkstra m' = dijkstra m ∧ k' = k
       else dijkstra m' = Insert (GetTarget out) INVALID_EDGE_WEIGHT
                            (mkContractorHeapData 0 true) (dijkstra m) ∧ k' = S k
  else dijkstra m' = dijkstra m ∧ mw' = mw ∧ k' = k.
Proof.
  intros H. unfold candidate.
  destruct (forward (GetEdgeData out)) eqn:Hf.
  - destruct (decide (node = GetTarget out)) as [Hn|Hn].
    + rewrite decide_False by (intros (? & ? & ?); congruence).
      unfold register_target in H. rewrite Hf in H. csimpl in H.
      rewrite bool_decide_eq_true_2 in H by done. by injection H as <- <- <-.
    + destruct (decide (GetTarget out = src)) as [Hs|Hs].
      * rewrite decide_False by (intros (? & ? & ?); congruence). step_cases; congruence.
      * rewrite decide_True by (repeat split; congruence).
        unfold register_target in H. rewrite Hf in H. csimpl in H.
        rewrite !bool_decide_eq_false_2 in H by done.
        destruct (WasInserted (dijkstra m) (GetTarget out)); csimpl in H;
          by injection H as <- <- <-.
  - rewrite decide_False by (intros (? & ? & ?); congruence).
    unfold register_target in H. rewrite Hf in H. by injection H as <- <- <-.
Qed.

Lemma register_target_graph sim node src in_data out s s' :
  register_target INVALID_EDGE_WEIGHT sim node src in_data out s = Ok s' →
  graph s'.1.1 = graph s.1.1.
Proof. destruct s as [[m mw] k]. intros H. step_cases. Qed.

Lemma shortcut_if_needed_dijkstra sim node src in_data out m m' :
  shortcut_if_needed sim node src in_data out m = Ok m' → dijkstra m' = dijkstra m.
Proof. intros H. step_cases. Qed.

Lemma shortcuts_dijkstra sim node src in_data range m m' :
  for_each (shortcut_if_needed sim node src in_data) range m = Ok m' →
  dijkstra m' = dijkstra m.
Proof.
  apply (for_each_invariant (λ m', dijkstra m' = dijkstra m)); [done|].
  intros out m1 m2 _ <-. apply shortcut_if_needed_dijkstra.
Qed.

Lemma counted_dijkstra sim in_data m m' :
  counted sim in_data m = Ok m' → dijkstra m' = dijkstra m.
Proof. intros H. step_cases. Qed.

Lemma register_all_snoc targets t d :
  register_all (targets ++ [t]) d =
  Insert t INVALID_EDGE_WEIGHT (mkContractorHeapData 0 true) (register_all targets d).
Proof. unfold register_all. by rewrite foldl_app. Qed.

(** The goals of the witness search of a turn: the targets of the
    candidates among [range], each once, in the order in which they first
    occur. *)
Definition add_target node src (targets : list NodeID) (out : GraphEdge) : list NodeID :=
  if decide (candidate node src out ∧ GetTarget out ∉ targets)
  then targets ++ [GetTarget out] else targets.

Definition targets_of node src range : list NodeID := foldl (add_target node src) [] range.

Lemma targets_of_snoc node src range out :
  targets_of node src (range ++ [out]) = add_target node src (targets_of node src range) out.
Proof. unfold targets_of. by rewrite foldl_app. Qed.

Lemma targets_of_NoDup node src range : NoDup (targets_of node src range).
Proof.
  induction range as [|out range IH] using rev_ind; [apply NoDup_nil_2|].
  rewrite targets_of_snoc. unfold add_target. case_decide as Hadd; [|done].
  destruct Hadd as [_ Hfresh]. apply NoDup_app. split; [done|].
  split; [|apply NoDup_singleton].
  intros t Ht Hx%list_elem_of_singleton. by subst t.
Qed.

Lemma elem_of_targets_of node src range t :
  t ∈ targets_of node src range ↔
  ∃ out, out ∈ range ∧ candidate node src out ∧ GetTarget out = t.
Proof.
  induction range as [|x range IH] using rev_ind.
  - split; [by intros ?%elem_of_nil|]. by intros (out & ?%elem_of_nil & _).
  - rewrite targets_of_snoc. unfold add_target. case_decide as Hadd.
    + destruct Hadd as [Hc Hfresh]. rewrite elem_of_app, list_elem_of_singleton, IH. split.
      * intros [(out & Hout & ?)| ->].
        -- exists out. split; [|done]. apply elem_of_app. by left.
        -- exists x. split; [|done]. apply elem_of_app. right. by left.
      * intros (out & [Hout|Hx%list_elem_of_singleton]%elem_of_app & Hco & Ht).
        -- left. eauto.
        -- subst out. by right.
    + rewrite IH. split.
      * intros (out & Hout & ?). exists out. split; [|done]. apply elem_of_app. by left.
      * intros (out & [Hout|Hx%list_elem_of_singleton]%elem_of_app & Hco & Ht); [eauto|].
        subst out. apply IH.
        destruct (decide (GetTarget x ∈ targets_of node src range)) as [Hin|Hnin];
          [by rewrite <- Ht | by destruct Hadd].
Qed.

(** The first inner loop registers each candidate target once, in the
    order of first occurrence, and tracks the largest candidate weight. *)
Lemma register_targets_search `{!ContractorDijkstraLaws D}
    sim node src in_data range m0 m3 mw k :
  (∀ t, WasInserted (dijkstra m0) t = bool_decide (t = src)) →
  for_each (register_target INVALID_EDGE_WEIGHT sim node src in_data) range (m0, 0, 0%nat)
    = Ok (m3, mw, k) →
  dijkstra m3 = register_all (targets_of node src range) (dijkstra m0) ∧
  k = length (targets_of node src range) ∧
  mw = foldl Z.max 0 (candidate_weights node src in_data range).
Proof.
  intros Hseed. revert m3 mw k.
  enough (∀ m3 mw k,
    for_each (register_target INVALID_EDGE_WEIGHT sim node src in_data) range (m0, 0, 0%nat)
      = Ok (m3, mw, k) →
    (dijkstra m3 = register_all (targets_of node src range) (dijkstra m0) ∧
     k = length (targets_of node src range) ∧
     mw = foldl Z.max 0 (candidate_weights node src in_data range)) ∧
    (∀ t, WasInserted (dijkstra m3) t = true ↔ t = src ∨ t ∈ targets_of node src range))
    as Hgen.
  { intros m3 mw k Hr. by destruct (Hgen m3 mw k Hr). }
  induction range as [|x range IH] using rev_ind; intros m3 mw k Hr.
  - simpl in Hr. injection Hr as <- <- <-. split; [done|]. intros t. rewrite Hseed. split.
    + intros ?%bool_decide_eq_true_1. by left.
    + intros [->|?%elem_of_nil]; [|done]. by apply bool_decide_eq_true_2.
  - rewrite for_each_snoc in Hr.
    destruct (for_each _ range _) as [[[m1 mw1] k1]| |]; csimpl in Hr; try done.
    destruct (IH m1 mw1 k1 eq_refl) as ((Hd & Hk & Hmw) & Hins).
    destruct (register_target INVALID_EDGE_WEIGHT sim node src in_data x (m1, mw1, k1))
      as [[[m2 mw2] k2]| |] eqn:Hstep; csimpl in Hr; try done.
    injection Hr as -> -> ->.
    apply register_target_search in Hstep.
    rewrite targets_of_snoc. unfold add_target.
    unfold candidate_weights. rewrite filter_app, filter_cons, filter_nil.
    destruct (decide (candidate node src x)) as [Hc|Hc].
    + rewrite fmap_app, foldl_app. csimpl.
      destruct Hstep as [-> Hstep]. fold (candidate_weights node src in_data range).
      rewrite <- Hmw.
      destruct (WasInserted (dijkstra m1) (GetTarget x)) eqn:Hw.
      * destruct Hstep as [-> ->].
        destruct (proj1 (Hins _) Hw) as [Hsrc|Hin]; [by destruct Hc as (_ & _ & ?)|].
        rewrite decide_False by (intros [_ ?]; done). done.
      * destruct Hstep as [-> ->].
        assert (GetTarget x ∉ targets_of node src range) as Hfresh.
        { intros Hin. assert (WasInserted (dijkstra m1) (GetTarget x) = true) as Hw'
            by (apply Hins; by right). congruence. }
        rewrite decide_True by done. split.
        -- split; [by rewrite register_all_snoc, Hd|]. split; [|done].
           rewrite length_app. simpl. lia.
        -- intros t.
           rewrite WasInserted_Insert, orb_true_iff, elem_of_app, list_elem_of_singleton,
             bool_decide_eq_true, Hins.
           intuition congruence.
    + destruct Hstep as (-> & -> & ->). rewrite app_nil_r.
      fold (candidate_weights node src in_data range).
      rewrite decide_False by (intros [? _]; done). done.
Qed.

(** The state of the witness search after the run of the turn for
    [in_edge], from the state [d] the search has when the turn begins:
    cleared, the source inserted with key 0, the goals inserted with
    [INVALID_EDGE_WEIGHT] and the target mark, and run with their number,
    the budget of the mode and the largest candidate weight. *)
Definition witness_search (sim : bool) node range (g : list (list GraphEdge))
    (in_edge : GraphEdge) (d : D) : D :=
  Run (length (targets_of node (GetTarget in_edge) range))
    (if sim then SIMULATION_SEARCH_SPACE_SIZE else FULL_SEARCH_SPACE_SIZE)
    (foldl Z.max 0 (candidate_weights node (GetTarget in_edge) (GetEdgeData in_edge) range))
    node g
    (register_all (targets_of node (GetTarget in_edge) range)
       (Insert (GetTarget in_edge) 0 ContractorHeapData_default (Clear d))).

(** The state of the search after a turn for an incoming edge that is
    traversable backward. *)
Lemma contract_in_edge_search `{!ContractorDijkstraLaws D} sim node range e m m' :
  GetTarget e ≠ node → backward (GetEdgeData e) = true →
  contract_in_edge INVALID_EDGE_WEIGHT sim node range e m = Ok m' →
  dijkstra m' = witness_search sim node range (graph m) e (dijkstra m).
Proof.
  intros Hne Hb H.
  apply contract_in_edge_inv in H
    as [[? _]|(_ & m1 & Hc & [[? _]|(_ & m3 & mw & k & Hr & Hs)])]; try congruence.
  assert (graph m1 = graph m) as HG1 by (clear -Hc; step_cases).
  assert (graph m3 = graph m1) as HG3.
  { apply (for_each_invariant (λ s, graph s.1.1 = graph m1)) in Hr; [exact Hr|done|].
    intros out s s' _ <- Hstep. by eapply register_target_graph. }
  apply register_targets_search in Hr as (Hd & -> & ->).
  - rewrite (shortcuts_dijkstra _ _ _ _ _ _ _ Hs). unfold witness_search. simpl.
    rewrite Hd, HG3, HG1. simpl. by rewrite (counted_dijkstra _ _ _ _ Hc).
  - intros t. simpl. rewrite WasInserted_Insert, WasInserted_Clear, orb_false_r.
    apply bool_decide_ext. intuition congruence.
Qed.

End search_state.

Lemma foldl_max_le (l : list Z) (a : Z) : a ≤ foldl Z.max a l.
Proof.
  revert a. induction l as [|x l IH]; intros a; simpl; [lia|].
  specialize (IH (a `max` x)). lia.
Qed.

Lemma foldl_max_upper (l : list Z) (a w : Z) : w ∈ l → w ≤ foldl Z.max a l.
Proof.
  revert a. induction l as [|x l IH]; intros a; simpl; [by intros ?%elem_of_nil|].
  intros [->|Hw]%elem_of_cons; [|by apply IH].
  pose proof (foldl_max_le l (a `max` x)). lia.
Qed.

Lemma foldl_max_attained (l : list Z) (a : Z) : foldl Z.max a l = a ∨ foldl Z.max a l ∈ l.
Proof.
  revert a. induction l as [|x l IH]; intros a; simpl; [by left|].
  destruct (IH (a `max` x)) as [E|E].
  - rewrite E. destruct (Z.max_spec a x) as [[_ ->]|[_ ->]]; [right; by left|by left].
  - right. by right.
Qed.

Section logged.
Context {D : Type} `{!ContractorDijkstraOps D}.
Variable INVALID_EDGE_WEIGHT : EdgeWeight.
Implicit Types (m : @Mem (Logged D)) (node src : NodeID) (range : list GraphEdge).
#[local] Arguments register_target : simpl never.

(** Recording the calls changes nothing else: a run on the recording
    search is, with the records dropped, the run on the search it wraps. *)
Definition erase m : @Mem D :=
  mkMem (graph m) (node_weights m) (inner (dijkstra m)) (inserted_edges m) (neighbours m)
    (stats m).

Definition result_map {A B : Type} (f : A → B) (r : result A) : result B :=
  match r with
  | Ok a => Ok (f a)
  | AssertionFailed => AssertionFailed
  | OutOfBounds => OutOfBounds
  end.

Lemma for_each_map {A S1 S2 : Type} (f : S1 → S2)
    (body1 : A → S1 → result S1) (body2 : A → S2 → result S2) l s :
  (∀ x s, result_map f (body1 x s) = body2 x (f s)) →
  result_map f (for_each body1 l s) = for_each body2 l (f s).
Proof.
  intros Hstep. revert s. induction l as [|x l IH]; intros s; simpl; [done|].
  rewrite <- Hstep. destruct (body1 x s); simpl; auto.
Qed.

Lemma register_target_erase sim node src in_data out m mw k :
  result_map (λ s, (erase s.1.1, s.1.2, s.2))
    (register_target INVALID_EDGE_WEIGHT sim node src in_data out (m, mw, k)) =
  register_target INVALID_EDGE_WEIGHT sim node src in_data out (erase m, mw, k).
Proof.
  unfold register_target, read_node_weight, write_node_weight, assert_stats. simpl.
  repeat (case_match; simplify_eq/=; try done).
Qed.

Lemma shortcut_if_needed_erase sim node src in_data out m :
  result_map erase (shortcut_if_needed sim node src in_data out m) =
  shortcut_if_needed sim node src in_data out (erase m).
Proof.
  unfold shortcut_if_needed, assert_stats. simpl.
  repeat (case_match; simplify_eq/=; try done).
Qed.

Lemma counted_erase sim in_data m :
  result_map erase (counted sim in_data m) = counted sim in_data (erase m).
Proof.
  unfold counted, assert_stats. simpl.
  repeat (case_match; simplify_eq/=; try done).
Qed.

Lemma contract_in_edge_erase sim node range e m :
  result_map erase (contract_in_edge INVALID_EDGE_WEIGHT sim node range e m) =
  contract_in_edge INVALID_EDGE_WEIGHT sim node range e (erase m).
Proof.
  destruct (decide (GetTarget e = node)) as [Hself|Hself];
    [by rewrite !contract_in_edge_self|].
  rewrite !contract_in_edge_unfold by done.
  rewrite <- counted_erase.
  destruct (counted sim (GetEdgeData e) m) as [m1| |]; csimpl; try done.
  destruct (backward (GetEdgeData e)); csimpl; [|done].
  change (seeded (GetTarget e) (erase m1), 0, 0%nat)
    with ((λ s : @Mem (Logged D) * Z * nat, (erase s.1.1, s.1.2, s.2))
            (seeded (GetTarget e) m1, 0, 0%nat)).
  rewrite <- (for_each_map _ (register_target INVALID_EDGE_WEIGHT sim node _ _))
    by (intros out [[m2 mw] k]; apply register_target_erase).
  destruct (for_each _ range (seeded _ m1, _, _)) as [[[m3 mw] k]| |]; csimpl; try done.
  change (searched sim node mw k (erase m3)) with (erase (searched sim node mw k m3)).
  apply for_each_map. intros; apply shortcut_if_needed_erase.
Qed.

Lemma ContractNode_erase sim node m :
  result_map erase (ContractNode INVALID_EDGE_WEIGHT sim node m) =
  ContractNode INVALID_EDGE_WEIGHT sim node (erase m).
Proof.
  unfold ContractNode, ContractNode_range. simpl.
  rewrite <- (for_each_map erase (contract_in_edge INVALID_EDGE_WEIGHT sim node _))
    by (intros; apply contract_in_edge_erase).
  destruct (for_each _ _ m) as [m1| |]; csimpl; try done.
  destruct sim; csimpl; [done|].
  destruct (merge_duplicates _ _ _ _ _) as [[size v]| |]; done.
Qed.

Lemma calls_register_all targets (d : Logged D) :
  calls (register_all INVALID_EDGE_WEIGHT targets d) =
  calls d ++ ((λ t, CallInsert t INVALID_EDGE_WEIGHT (mkContractorHeapData 0 true)) <$> targets).
Proof.
  induction targets as [|t targets IH] using rev_ind.
  - simpl. by rewrite app_nil_r.
  - rewrite register_all_snoc, fmap_app. simpl. by rewrite IH, app_assoc.
Qed.

(** C5.  In one turn for an incoming edge that is traversable backward,
    the calls to the witness search are: [Clear], [Insert] of the source
    with key 0, one [Insert] with [INVALID_EDGE_WEIGHT] and the target
    mark for each of [targets], and one [Run].  [targets] is
    [targets_of]: it lists without repetition, in the order of first
    occurrence, the targets of the outgoing edges that are traversable
    forward and lead neither to the node nor to the source, so a target
    of several parallel edges is registered once.  [Run] gets their
    number, the budget of the mode, and as weight bound the largest path
    weight over these edges, starting from 0, where a path weight is the
    32-bit sum [EdgeWeight_add in.weight out.weight]: the bound is at
    least every such path weight and is one of them or 0. *)
Theorem C5_targets_registered_once `{!ContractorDijkstraLaws D}
    (RUNSIMULATION : bool) node range in_edge m :
  GetTarget in_edge ≠ node →
  backward (GetEdgeData in_edge) = true →
  (node < length (node_weights m))%nat →
  (GetTarget in_edge < length (node_weights m))%nat →
  (RUNSIMULATION = true → is_Some (stats m)) →
  ∃ m' targets max_weight,
    contract_in_edge INVALID_EDGE_WEIGHT RUNSIMULATION node range in_edge m = Ok m' ∧
    targets = targets_of node (GetTarget in_edge) range ∧
    NoDup targets ∧
    (∀ t, t ∈ targets ↔
          ∃ out, out ∈ range ∧ candidate node (GetTarget in_edge) out ∧ GetTarget out = t) ∧
    calls (dijkstra m') =
      calls (dijkstra m)
      ++ [CallClear; CallInsert (GetTarget in_edge) 0 ContractorHeapData_default]
      ++ ((λ t, CallInsert t INVALID_EDGE_WEIGHT (mkContractorHeapData 0 true)) <$> targets)
      ++ [CallRun (length targets)
            (if RUNSIMULATION then SIMULATION_SEARCH_SPACE_SIZE else FULL_SEARCH_SPACE_SIZE)
            max_weight node] ∧
    max_weight =
      foldl Z.max 0 (candidate_weights node (GetTarget in_edge) (GetEdgeData in_edge) range) ∧
    (∀ w, w ∈ candidate_weights node (GetTarget in_edge) (GetEdgeData in_edge) range →
          w ≤ max_weight) ∧
    (max_weight = 0 ∨
     max_weight ∈ candidate_weights node (GetTarget in_edge) (GetEdgeData in_edge) range).
Proof.
  intros Hne Hb Hnode Hsrc Hstats.
  destruct (contract_in_edge_total INVALID_EDGE_WEIGHT RUNSIMULATION node range in_edge m)
    as (m' & Hturn & _); [done|done|done|].
  pose proof (contract_in_edge_search INVALID_EDGE_WEIGHT RUNSIMULATION node range in_edge
                m m' Hne Hb Hturn) as Hd.
  exists m', (targets_of node (GetTarget in_edge) range), (foldl Z.max 0
    (candidate_weights node (GetTarget in_edge) (GetEdgeData in_edge) range)).
  split; [done|]. split; [done|]. split; [apply targets_of_NoDup|].
  split; [apply elem_of_targets_of|]. split.
  - rewrite Hd. unfold witness_search. simpl. rewrite calls_register_all. simpl.
    by rewrite <- !app_assoc.
  - split; [done|]. split; [apply foldl_max_upper | apply foldl_max_attained].
Qed.

(** The calls of one turn, whatever the witness search answers. *)
Definition turn_calls (sim : bool) node (n : nat) (new : list DijkstraCall) : Prop :=
  (∀ k limit w f, CallRun k limit w f ∈ new →
     limit = (if sim then 1000 else 2000) ∧ f = node) ∧
  length (filter (λ c, is_run c = true) new) = n.

Definition only_inserts (d d' : Logged D) : Prop :=
  ∃ new, calls d' = calls d ++ new ∧ Forall (λ c, is_run c = false) new.

Lemma register_targets_only_inserts sim node src in_data range m mw k m' mw' k' :
  for_each (register_target INVALID_EDGE_WEIGHT sim node src in_data) range (m, mw, k)
    = Ok (m', mw', k') →
  only_inserts (dijkstra m) (dijkstra m').
Proof.
  intros H.
  apply (for_each_invariant (λ s, only_inserts (dijkstra m) (dijkstra s.1.1))) in H;
    [exact H| exists []; by rewrite app_nil_r |].
  intros out [[m1 mw1] k1] [[m2 mw2] k2] _ (new & Hnew & Hfa) Hstep. simpl in *.
  apply register_target_search in Hstep.
  destruct (decide (candidate node src out)).
  - destruct Hstep as [_ Hstep].
    destruct (WasInserted (dijkstra m1) (GetTarget out)).
    + destruct Hstep as [-> _]. by exists new.
    + destruct Hstep as [-> _]. simpl. eexists. rewrite Hnew, <- app_assoc.
      split; [done|]. apply Forall_app. split; [done|]. by repeat constructor.
  - destruct Hstep as (-> & _). by exists new.
Qed.

Lemma contract_in_edge_calls sim node range e m m' :
  contract_in_edge INVALID_EDGE_WEIGHT sim node range e m = Ok m' →
  ∃ new, calls (dijkstra m') = calls (dijkstra m) ++ new ∧
    turn_calls sim node
      (if decide (GetTarget e ≠ node ∧ backward (GetEdgeData e) = true) then 1 else 0)%nat new.
Proof.
  intros H.
  apply contract_in_edge_inv in H
    as [[Hself ->]|(Hne & m1 & Hc & [[Hb ->]|(Hb & m3 & mw & k & Hr & Hs)])].
  - exists []. rewrite app_nil_r. split; [done|].
    rewrite decide_False by (intros [? _]; done).
    split; [by intros ???? ?%elem_of_nil|done].
  - exists []. rewrite app_nil_r, (counted_dijkstra _ _ _ _ Hc). split; [done|].
    rewrite decide_False by (intros [_ ?]; congruence).
    split; [by intros ???? ?%elem_of_nil|done].
  - rewrite decide_True by done.
    apply register_targets_only_inserts in Hr as (inserts & Hins & Hfa).
    rewrite (shortcuts_dijkstra _ _ _ _ _ _ _ Hs). simpl.
    rewrite Hins. simpl. rewrite (counted_dijkstra _ _ _ _ Hc).
    eexists. rewrite <- !app_assoc. split; [done|]. split.
    + intros k' limit w f. simpl. rewrite !elem_of_cons, elem_of_app, list_elem_of_singleton.
      intros [?|[?|[Hin|Heq]]]; try done.
      * rewrite Forall_forall in Hfa. by apply Hfa in Hin.
      * injection Heq as -> -> -> ->. by destruct sim.
    + assert (filter (λ c, is_run c = true) inserts = []) as Hnone.
      { clear -Hfa. induction Hfa as [|c l Hc _ IH]; [done|].
        rewrite filter_cons, decide_False by congruence. done. }
      rewrite !filter_app, !length_app, Hnone. done.
Qed.

Lemma contract_in_edges_calls sim node range ins m m' :
  for_each (contract_in_edge INVALID_EDGE_WEIGHT sim node range) ins m = Ok m' →
  ∃ new, calls (dijkstra m') = calls (dijkstra m) ++ new ∧
    turn_calls sim node
      (length (filter (λ e, GetTarget e ≠ node ∧ backward (GetEdgeData e) = true) ins)) new.
Proof.
  revert m. induction ins as [|e ins IH]; intros m; simpl.
  - intros [= <-]. exists []. rewrite app_nil_r. split; [done|].
    split; [by intros ???? ?%elem_of_nil|done].
  - destruct (contract_in_edge _ _ _ _ e m) as [m1| |] eqn:Hstep; csimpl; try done.
    intros Hrest.
    apply contract_in_edge_calls in Hstep as (new1 & E1 & Hall1 & Hn1).
    apply IH in Hrest as (new2 & E2 & Hall2 & Hn2).
    exists (new1 ++ new2). rewrite E2, E1, app_assoc. split; [done|]. split.
    + intros k limit w f [?|?]%elem_of_app; eauto.
    + rewrite filter_app, length_app, Hn1, Hn2, filter_cons.
      by destruct (decide (GetTarget e ≠ node ∧ backward (GetEdgeData e) = true)).
Qed.

(** C6.  Every call of [Run] that ContractNode makes has the budget 1000
    in simulation mode and 2000 in real mode (and the contracted node as
    the node to avoid), and there is one such call for each adjacent edge
    that is traversable backward and does not lead back to the node. *)
Theorem C6_search_budget (RUNSIMULATION : bool) node m :
  weights_cover node (GetAdjacentEdgeRange (graph m) node) m →
  (RUNSIMULATION = true → is_Some (stats m)) →
  ∃ m' new,
    ContractNode INVALID_EDGE_WEIGHT RUNSIMULATION node m = Ok m' ∧
    calls (dijkstra m') = calls (dijkstra m) ++ new ∧
    (∀ number_of_targets limit max_weight forbidden,
       CallRun number_of_targets limit max_weight forbidden ∈ new →
       limit = (if RUNSIMULATION then 1000 else 2000) ∧ forbidden = node) ∧
    length (filter (λ c, is_run c = true) new) =
    length (filter (λ e, GetTarget e ≠ node ∧ backward (GetEdgeData e) = true)
              (GetAdjacentEdgeRange (graph m) node)).
Proof.
  intros [Hnode Hrange] Hstats.
  destruct (contract_in_edges_total INVALID_EDGE_WEIGHT RUNSIMULATION node
              (GetAdjacentEdgeRange (graph m) node) (GetAdjacentEdgeRange (graph m) node) m)
    as (m1 & Hloop & F); [done|done|done|].
  destruct (contract_in_edges_calls _ _ _ _ _ _ Hloop) as (new & Hnew & Hall & Hn).
  destruct RUNSIMULATION.
  - exists m1, new. by rewrite ContractNode_simulation.
  - destruct F as (_ & _ & _ & _ & _ & raw & Hraw).
    eexists _, new. split; [by eapply ContractNode_real|]. done.
Qed.

End logged.

(** ** GetThreadData: one scratch object per worker *)

Section GetThreadData_properties.
Context {D : Type} `{!ContractorDijkstraOps D}.
Implicit Types (c : @ThreadData.ThreadDataContainer) (h : list (@ThreadData.ContractorThreadData D))
  (threads : list nat).

Lemma GetThreadData_first c h t :
  ThreadData.data c !! t = None →
  ThreadData.GetThreadData t (c, h) =
    (Some (length h),
     (ThreadData.mkThreadDataContainer (ThreadData.number_of_nodes c)
        (<[t := Some (length h)]> (ThreadData.data c)),
      h ++ [ThreadData.ContractorThreadData_new 4000])).
Proof.
  intros Hnone. unfold ThreadData.GetThreadData, ThreadData.local. rewrite Hnone. simpl.
  by rewrite insert_insert_eq.
Qed.

Lemma GetThreadData_later c h t p :
  ThreadData.data c !! t = Some p → ThreadData.GetThreadData t (c, h) = (p, (c, h)).
Proof.
  intros Hsome. unfold ThreadData.GetThreadData, ThreadData.local. by rewrite Hsome.
Qed.

(** Every slot owns an object made with capacity 4000, no two slots own
    the same object, and there are as many objects as slots. *)
Definition slots_own_objects c h : Prop :=
  (∀ t p, ThreadData.data c !! t = Some p →
     ∃ a, p = Some a ∧ h !! a = Some (ThreadData.ContractorThreadData_new 4000)) ∧
  (∀ t t' a, ThreadData.data c !! t = Some (Some a) →
             ThreadData.data c !! t' = Some (Some a) → t = t') ∧
  length h = size (ThreadData.data c).

Lemma GetThreadData_step c h t p c' h' :
  slots_own_objects c h →
  ThreadData.GetThreadData t (c, h) = (p, (c', h')) →
  slots_own_objects c' h' ∧
  ThreadData.data c' !! t = Some p ∧
  (∀ t' q, ThreadData.data c !! t' = Some q → ThreadData.data c' !! t' = Some q) ∧
  dom (ThreadData.data c') = {[t]} ∪ dom (ThreadData.data c) ∧
  ThreadData.number_of_nodes c' = ThreadData.number_of_nodes c.
Proof.
  intros (Hown & Hinj & Hsize).
  destruct (ThreadData.data c !! t) as [q|] eqn:Hslot.
  - rewrite (GetThreadData_later _ _ _ q) by done. intros [= <- <- <-].
    repeat split; try done.
    apply set_eq. intros x. rewrite elem_of_union, elem_of_singleton.
    split; [by right|]. intros [->|?]; [|done]. apply elem_of_dom. eauto.
  - rewrite GetThreadData_first by done. intros [= <- <- <-].
    repeat split; simpl.
    + intros t' q. destruct (decide (t' = t)) as [->|Hne].
      * rewrite lookup_insert_eq. intros [= <-]. eexists. split; [done|].
        by rewrite lookup_app_r, Nat.sub_diag.
      * rewrite lookup_insert_ne by done. intros Hq.
        destruct (Hown _ _ Hq) as (a & -> & Ha). exists a. split; [done|].
        by apply lookup_app_l_Some.
    + intros t1 t2 a.
      assert (∀ t', ThreadData.data c !! t' = Some (Some a) → a ≠ length h) as Hold.
      { intros t' Ht' ->. destruct (Hown _ _ Ht') as (a & [= <-] & Ha).
        apply lookup_lt_Some in Ha. lia. }
      destruct (decide (t1 = t)) as [->|H1], (decide (t2 = t)) as [->|H2];
        rewrite ?lookup_insert_eq, ?lookup_insert_ne by done; try done.
      * intros [= <-] Ht2. by destruct (Hold _ Ht2).
      * intros Ht1 [= <-]. by destruct (Hold _ Ht1).
      * apply Hinj.
    + rewrite length_app, map_size_insert_None by done. simpl. lia.
    + apply lookup_insert_eq.
    + intros t' q Hq. rewrite lookup_insert_ne; [done|]. congruence.
    + by rewrite dom_insert_L.
Qed.

#[local] Arguments ThreadData.GetThreadData : simpl never.

Lemma GetThreadData_calls_spec threads c h ptrs c' h' :
  slots_own_objects c h →
  ThreadData.GetThreadData_calls threads (c, h) = (ptrs, (c', h')) →
  slots_own_objects c' h' ∧
  length ptrs = length threads ∧
  (∀ i t, threads !! i = Some t → ptrs !! i = ThreadData.data c' !! t) ∧
  (∀ t q, ThreadData.data c !! t = Some q → ThreadData.data c' !! t = Some q) ∧
  dom (ThreadData.data c') = list_to_set threads ∪ dom (ThreadData.data c).
Proof.
  revert c h ptrs. induction threads as [|t threads IH]; intros c h ptrs Hwf; simpl.
  - intros [= <- <- <-]. split; [done|]. split; [done|].
    split; [by intros [|?] ?|]. split; [done|]. by rewrite union_empty_l_L.
  - destruct (ThreadData.GetThreadData t (c, h)) as [p [c1 h1]] eqn:Hstep.
    destruct (ThreadData.GetThreadData_calls threads (c1, h1)) as [ps [c2 h2]] eqn:Hrest.
    simpl. intros [= <- <- <-].
    destruct (GetThreadData_step _ _ _ _ _ _ Hwf Hstep) as [Hwf1 (Hp & Hkeep1 & Hdom1 & _)].
    destruct (IH _ _ _ Hwf1 Hrest) as [Hwf2 (Hlen & Hptrs & Hkeep2 & Hdom2)].
    split; [done|]. split; [simpl; by rewrite Hlen|]. split; [|split].
    + intros [|i] t'; simpl.
      * intros [= <-]. symmetry. by apply Hkeep2.
      * apply Hptrs.
    + intros t' q Hq. by apply Hkeep2, Hkeep1.
    + rewrite Hdom2, Hdom1. simpl.
      by rewrite (assoc_L (∪)), (comm_L (∪) (list_to_set threads)).
Qed.

Lemma slots_own_objects_new (number_of_nodes : Z) :
  slots_own_objects (ThreadData.ThreadDataContainer_new number_of_nodes) [].
Proof.
  unfold slots_own_objects, ThreadData.ThreadDataContainer_new. simpl.
  repeat split; try done; intros *; by rewrite lookup_empty.
Qed.

(** The stored [number_of_nodes] plays no part in what the calls return
    and create. *)
Lemma GetThreadData_any_size t c h (n : Z) :
  ThreadData.GetThreadData t (ThreadData.mkThreadDataContainer n (ThreadData.data c), h) =
  let r := ThreadData.GetThreadData t (c, h) in
  (r.1, (ThreadData.mkThreadDataContainer n (ThreadData.data r.2.1), r.2.2)).
Proof.
  unfold ThreadData.GetThreadData, ThreadData.local. simpl.
  by destruct (ThreadData.data c !! t).
Qed.

Lemma GetThreadData_calls_any_size threads c h (n : Z) :
  ThreadData.GetThreadData_calls threads
    (ThreadData.mkThreadDataContainer n (ThreadData.data c), h) =
  let r := ThreadData.GetThreadData_calls threads (c, h) in
  (r.1, (ThreadData.mkThreadDataContainer n (ThreadData.data r.2.1), r.2.2)).
Proof.
  revert c h. induction threads as [|t threads IH]; intros c h; simpl; [done|].
  rewrite GetThreadData_any_size.
  destruct (ThreadData.GetThreadData t (c, h)) as [p [c1 h1]]. simpl.
  rewrite IH.
  by destruct (ThreadData.GetThreadData_calls threads (c1, h1)) as [ps [c2 h2]].
Qed.

(** C8.  Over any schedule of calls of [GetThreadData] on a fresh
    container, every call returns an object; two calls return the same
    object exactly when the same worker makes them; the objects are those
    of the workers that called, one each; every object is as its
    constructor leaves it with the argument 4000, that is, its witness
    search is [ContractorDijkstra(4000)] and its buffers are empty; and
    the pointers returned and the objects created are the same whatever
    [number_of_nodes] the container was built with. *)
Theorem C8_thread_data_lazy_fixed_capacity (number_of_nodes : Z) threads :
  let r := ThreadData.GetThreadData_calls threads
             (ThreadData.ThreadDataContainer_new number_of_nodes, []) in
  (∀ i t, threads !! i = Some t →
     ∃ a, r.1 !! i = Some (Some a) ∧
          r.2.2 !! a = Some (ThreadData.mkContractorThreadData (Dijkstra_new 4000) [] [])) ∧
  (∀ i j t t' a a',
     threads !! i = Some t → threads !! j = Some t' →
     r.1 !! i = Some (Some a) → r.1 !! j = Some (Some a') →
     (a = a' ↔ t = t')) ∧
  length r.2.2 = size (ThreadData.data r.2.1) ∧
  dom (ThreadData.data r.2.1) = list_to_set threads ∧
  Forall (λ o, ThreadData.dijkstra o = Dijkstra_new 4000 ∧
               ThreadData.inserted_edges o = [] ∧ ThreadData.neighbours o = []) r.2.2 ∧
  (∀ n : Z,
     let r' := ThreadData.GetThreadData_calls threads
                 (ThreadData.ThreadDataContainer_new n, []) in
     r'.1 = r.1 ∧ r'.2.2 = r.2.2).
Proof.
  intros r.
  destruct r as [ptrs [c h]] eqn:Hr. subst r. simpl.
  destruct (GetThreadData_calls_spec _ _ _ _ _ _ (slots_own_objects_new number_of_nodes) Hr)
    as ((Hown & Hinj & Hsize) & Hlen & Hptrs & _ & Hdom).
  assert (∀ i t, threads !! i = Some t →
            ∃ a, ptrs !! i = Some (Some a) ∧ ThreadData.data c !! t = Some (Some a) ∧
                 h !! a = Some (ThreadData.ContractorThreadData_new 4000)) as Hcall.
  { intros i t Hi. rewrite (Hptrs i t Hi).
    assert (t ∈ dom (ThreadData.data c)) as [p Hp]%elem_of_dom.
    { rewrite Hdom. apply elem_of_union. left. apply elem_of_list_to_set.
      by eapply list_elem_of_lookup_2. }
    destruct (Hown _ _ Hp) as (a & -> & Ha). eauto. }
  repeat split.
  - intros i t Hi. destruct (Hcall i t Hi) as (a & ? & _ & ?). eauto.
  - intros ->. destruct (Hcall _ _ H) as (b & Hb & Hsb & _).
    destruct (Hcall _ _ H0) as (b' & Hb' & Hsb' & _).
    rewrite Hb in H1. rewrite Hb' in H2. injection H1 as ->. injection H2 as ->.
    by eapply Hinj.
  - intros ->. destruct (Hcall _ _ H) as (b & Hb & Hsb & _).
    destruct (Hcall _ _ H0) as (b' & Hb' & Hsb' & _).
    rewrite Hb in H1. rewrite Hb' in H2. congruence.
  - done.
  - rewrite Hdom. simpl. by rewrite dom_empty_L, union_empty_r_L.
  - apply (Forall_impl (λ o, o = ThreadData.ContractorThreadData_new 4000));
      [|by intros o ->].
    clear -Hr. revert Hr.
    enough (∀ c0 h0, Forall (λ o, o = ThreadData.ContractorThreadData_new 4000) h0 →
              ThreadData.GetThreadData_calls threads (c0, h0) = (ptrs, (c, h)) →
              Forall (λ o, o = ThreadData.ContractorThreadData_new 4000) h) as Hgen
      by (apply Hgen; constructor).
    revert ptrs. induction threads as [|t threads IH]; intros ptrs c0 h0 Hh0; simpl.
    + by intros [= <- <- <-].
    + destruct (ThreadData.GetThreadData t (c0, h0)) as [p [c1 h1]] eqn:Hstep.
      destruct (ThreadData.GetThreadData_calls threads (c1, h1)) as [ps [c2 h2]] eqn:Hrest.
      intros [= <- <- <-]. apply (IH ps c1 h1); [|done].
      unfold ThreadData.GetThreadData, ThreadData.local in Hstep.
      destruct (ThreadData.data c0 !! t); simpl in Hstep; injection Hstep as <- <- <-;
        [done|]. apply Forall_app. split; [done|]. by repeat constructor.
  - pose proof (GetThreadData_calls_any_size threads
                  (ThreadData.ThreadDataContainer_new number_of_nodes) [] n) as Hn.
    simpl in Hn. unfold ThreadData.ThreadDataContainer_new at 1. rewrite Hn, Hr. done.
  - pose proof (GetThreadData_calls_any_size threads
                  (ThreadData.ThreadDataContainer_new number_of_nodes) [] n) as Hn.
    simpl in Hn. unfold ThreadData.ThreadDataContainer_new at 1. rewrite Hn, Hr. done.
Qed.

End GetThreadData_properties.

(** ** The claims on the small road networks *)

Lemma weights_cover_Forall {D : Type} node range (m : @Mem D) :
  (node < length (node_weights m))%nat →
  Forall (λ e, (GetTarget e < length (node_weights m))%nat) range →
  weights_cover node range m.
Proof. intros Hnode Hrange. split; [done|]. by apply Forall_forall. Qed.

(** C2.  On the two-way street 0 - 1 of weight 2 with node 0 contracted,
    the loop 1 -> 0 -> 1 has path weight 4.  With [node_weights = [10; 3]]
    the path weight is not below the weight 3 of the source, yet the loop
    is recorded: real mode inserts the shortcut (merged into one record
    with both flags) and raises [node_weights[1]] to 4, simulation mode
    counts two added edges and sets [node_weights[1]] to 5.  With
    [node_weights = [3; 10]] the path weight is below the weight 10 of the
    source, yet nothing is recorded.  The test of line 172 reads
    [node_weights[node]]. *)
Theorem C2_loop_checked_against_contracted_node :
  ContractNode Example.INVALID_EDGE_WEIGHT false 0
    (Example.mem Example.cul_de_sac [10; 3] None) =
  Ok (mkMem Example.cul_de_sac [10; 4]
        (Run 0%nat FULL_SEARCH_SPACE_SIZE 0 0%nat Example.cul_de_sac
           (Insert 1%nat 0 ContractorHeapData_default (Clear [])))
        [ {| source := 1; target := 1;
             data := {| weight := 4; duration := 4; id := 0; originalEdges := 2;
                        shortcut := true; forward := true; backward := true |} |} ]
        [] None) ∧
  ContractNode Example.INVALID_EDGE_WEIGHT true 0
    (Example.mem Example.cul_de_sac [10; 3] (Some ContractionStats_new)) =
  Ok (mkMem Example.cul_de_sac [10; 5]
        (Run 0%nat SIMULATION_SEARCH_SPACE_SIZE 0 0%nat Example.cul_de_sac
           (Insert 1%nat 0 ContractorHeapData_default (Clear [])))
        [] [] (Some (mkContractionStats 1 2 1 4))) ∧
  ContractNode Example.INVALID_EDGE_WEIGHT false 0
    (Example.mem Example.cul_de_sac [3; 10] None) =
  Ok (mkMem Example.cul_de_sac [3; 10]
        (Run 0%nat FULL_SEARCH_SPACE_SIZE 0 0%nat Example.cul_de_sac
           (Insert 1%nat 0 ContractorHeapData_default (Clear [])))
        [] [] None).
Proof. repeat split; vm_compute; reflexivity. Qed.

(** Contracting the middle node of the two streets: the four records of
    the two turns are merged into two. *)
Lemma C3_witness :
  let m := Example.mem Example.street [0; 0; 0] None in
  ∃ m1 raw kept,
    for_each (contract_in_edge Example.INVALID_EDGE_WEIGHT false 1
                (GetAdjacentEdgeRange (graph m) 1))
      (GetAdjacentEdgeRange (graph m) 1) m = Ok m1 ∧
    inserted_edges m1 = inserted_edges m ++ raw ∧
    ContractNode Example.INVALID_EDGE_WEIGHT false 1 m =
      Ok (set_inserted_edges (inserted_edges m ++ kept) m1) ∧
    NoDup (edge_key <$> kept) ∧
    (∀ e, e ∈ raw → edge_key e ∈ edge_key <$> kept) ∧
    (∀ r, r ∈ kept →
       (∃ e, e ∈ raw ∧ same_but_flags r e) ∧
       (forward (data r) = true ↔ flagged forward (edge_key r) raw) ∧
       (backward (data r) = true ↔ flagged backward (edge_key r) raw)).
Proof.
  intros m.
  apply (C3_duplicate_shortcuts_merged Example.INVALID_EDGE_WEIGHT 1%nat m).
  apply weights_cover_Forall; [simpl; lia | repeat constructor; simpl; lia].
Defined.

(** Simulating the contraction of the end of the cul-de-sac. *)
Lemma C4_witness :
  let m := Example.mem Example.cul_de_sac [10; 3] (Some ContractionStats_new) in
  ∃ m', ContractNode Example.INVALID_EDGE_WEIGHT true 0 m = Ok m' ∧
    graph m' = graph m ∧
    inserted_edges m' = inserted_edges m ∧
    neighbours m' = neighbours m ∧
    length (node_weights m') = length (node_weights m) ∧
    ∀ k, node_weights m' !! k = node_weights m !! k ∨
         loop_source 0 (GetAdjacentEdgeRange (graph m) 0) k.
Proof.
  intros m.
  apply (C4_simulation_mutates_no_graph Example.INVALID_EDGE_WEIGHT 0%nat m).
  - apply weights_cover_Forall; [simpl; lia | repeat constructor; simpl; lia].
  - simpl. eauto.
Defined.

(** The calls of the turn for A -> B where two parallel edges lead from B
    on to C: C is registered once, then D, and the bound is the weight of
    the heavier way to C. *)
Lemma C5_witness :
  let in_edge := Example.edge 0 1 false true in
  let range := GetAdjacentEdgeRange Example.parallel 1 in
  let m := Example.logged_mem Example.parallel [0; 0; 0; 0] (Some ContractionStats_new) in
  (targets_of 1 0 range = [2; 3]%nat ∧
   candidate_weights 1 0 (GetEdgeData in_edge) range = [2; 3; 6]) ∧
  ∃ m' targets max_weight,
    contract_in_edge Example.INVALID_EDGE_WEIGHT true 1 range in_edge m = Ok m' ∧
    targets = targets_of 1 0 range ∧
    NoDup targets ∧
    (∀ t, t ∈ targets ↔ ∃ out, out ∈ range ∧ candidate 1 0 out ∧ GetTarget out = t) ∧
    calls (dijkstra m') =
      calls (dijkstra m)
      ++ [CallClear; CallInsert 0 0 ContractorHeapData_default]
      ++ ((λ t, CallInsert t Example.INVALID_EDGE_WEIGHT (mkContractorHeapData 0 true))
            <$> targets)
      ++ [CallRun (length targets) SIMULATION_SEARCH_SPACE_SIZE max_weight 1] ∧
    max_weight = foldl Z.max 0 (candidate_weights 1 0 (GetEdgeData in_edge) range) ∧
    (∀ w, w ∈ candidate_weights 1 0 (GetEdgeData in_edge) range → w ≤ max_weight) ∧
    (max_weight = 0 ∨ max_weight ∈ candidate_weights 1 0 (GetEdgeData in_edge) range).
Proof.
  intros in_edge range m. split; [split; vm_compute; reflexivity|].
  apply (C5_targets_registered_once Example.INVALID_EDGE_WEIGHT true 1%nat range in_edge m);
    [done | done | simpl; lia | simpl; lia | simpl; eauto].
Defined.

(** The searches of a real contraction of the middle node of the two
    streets. *)
Lemma C6_witness :
  let m := Example.logged_mem Example.street [0; 0; 0] None in
  ∃ m' new,
    ContractNode Example.INVALID_EDGE_WEIGHT false 1 m = Ok m' ∧
    calls (dijkstra m') = calls (dijkstra m) ++ new ∧
    (∀ number_of_targets limit max_weight forbidden,
       CallRun number_of_targets limit max_weight forbidden ∈ new →
       limit = 2000 ∧ forbidden = 1%nat) ∧
    length (filter (λ c, is_run c = true) new) =
    length (filter (λ e, GetTarget e ≠ 1%nat ∧ backward (GetEdgeData e) = true)
              (GetAdjacentEdgeRange (graph m) 1)).
Proof.
  intros m.
  apply (C6_search_budget Example.INVALID_EDGE_WEIGHT false 1%nat m).
  - apply weights_cover_Forall; [simpl; lia | repeat constructor; simpl; lia].
  - done.
Defined.

(** Simulating the contraction of B without a statistics record, and
    contracting it for real. *)
Lemma C7_witness :
  ContractNode Example.INVALID_EDGE_WEIGHT true 1
    (Example.mem Example.chain [10; 10; 10] None) = AssertionFailed ∧
  ContractNode Example.INVALID_EDGE_WEIGHT true 1
    (Example.mem Example.chain [10; 10; 10] (Some ContractionStats_new)) ≠ AssertionFailed.
Proof.
  split.
  - apply (proj1 (C7_missing_stats_fails_assertion Example.INVALID_EDGE_WEIGHT 1%nat
                    (Example.mem Example.chain [10; 10; 10] None))); [done|].
    exists (Example.edge 0 1 false true). split; [by left | done].
  - apply (proj2 (C7_missing_stats_fails_assertion Example.INVALID_EDGE_WEIGHT 1%nat
                    (Example.mem Example.chain [10; 10; 10] (Some ContractionStats_new)))).
    simpl. eauto.
Defined.


(** * Further properties of the same code *)

(** ** The merge loops on any vector *)

Section merge_more.
Implicit Types (e o r : ContractorEdge) (l v : list ContractorEdge).

Lemma absorb_None_iff e l : absorb e l = None ↔ edge_key e ∉ edge_key <$> l.
Proof.
  split; [apply absorb_None_key|].
  intros Hk. destruct (absorb e l) as [l'|] eqn:E; [|done].
  by apply absorb_Some_key in E.
Qed.

(** The keys that survive, in order: those of the last occurrences. *)
Lemma merged_remove_dups n l :
  length l = n → edge_key <$> merged n l = remove_dups (edge_key <$> l).
Proof.
  revert l. induction n as [|n IH]; intros [|e l]; csimpl; try done.
  intros [= Hl]. destruct (absorb e l) as [l1|] eqn:E.
  - rewrite IH by (by rewrite (absorb_length e l l1)).
    rewrite (absorb_keys e l l1) by done.
    destruct (decide_rel _ _ _) as [?|Hn]; [done|].
    destruct Hn. by eapply absorb_Some_key.
  - csimpl. rewrite IH by done.
    destruct (decide_rel _ _ _) as [Hin|?]; [|done].
    by apply absorb_None_key in E.
Qed.

Lemma merged_unique n l :
  length l = n → NoDup (edge_key <$> l) → merged n l = l.
Proof.
  revert l. induction n as [|n IH]; intros [|e l]; csimpl; try done.
  intros [= Hl] [Hk Hnd]%NoDup_cons.
  apply absorb_None_iff in Hk. rewrite Hk. by rewrite IH.
Qed.

Lemma absorb_pointwise e l l' : absorb e l = Some l' → Forall2 same_but_flags l' l.
Proof.
  revert l'. induction l as [|o l IH]; intros l'; csimpl; [done|].
  case_decide as Hk.
  - intros [= <-]. constructor; [by repeat split|].
    apply Forall2_same_length_lookup. split; [done|].
    intros i x y Hx Hy. rewrite Hx in Hy. injection Hy as ->. by repeat split.
  - destruct (absorb e l) as [l1|]; csimpl; [|done].
    intros [= <-]. constructor; [by repeat split | by apply IH].
Qed.

Lemma same_but_flags_key r e : same_but_flags r e → edge_key r = edge_key e.
Proof. intros (? & ? & ? & _ & _ & _ & ?). unfold edge_key. congruence. Qed.

Lemma pointwise_keys l' l : Forall2 same_but_flags l' l → edge_key <$> l' = edge_key <$> l.
Proof.
  induction 1 as [|x y l' l Hxy _ IH]; csimpl; [done|].
  by rewrite (same_but_flags_key _ _ Hxy), IH.
Qed.

(** A record that survives stands at the place of the last input record
    with its key, and differs from it in the flags only. *)
Lemma merged_last n l r :
  length l = n → r ∈ merged n l →
  ∃ l1 e l2, l = l1 ++ e :: l2 ∧ same_but_flags r e ∧ edge_key r ∉ edge_key <$> l2.
Proof.
  revert l. induction n as [|n IH]; intros [|e l]; csimpl; try done;
    try (by intros _ ?%elem_of_nil).
  intros [= Hl]. destruct (absorb e l) as [l1|] eqn:E.
  - intros Hr.
    destruct (IH l1) as (a & x & b & -> & Hrx & Hlast);
      [by rewrite (absorb_length e l l1)|done|].
    apply absorb_pointwise in E.
    apply Forall2_app_inv_l in E as (a' & xb' & Ha & Hxb & ->).
    apply Forall2_cons_inv_l in Hxb as (x' & b' & Hx & Hb & ->).
    exists (e :: a'), x', b'. split; [done|]. split.
    + eauto using same_but_flags_trans.
    + by rewrite <- (pointwise_keys _ _ Hb).
  - rewrite elem_of_cons. intros [->|Hr].
    + exists [], e, l. split; [done|]. split; [by repeat split|].
      by apply absorb_None_key.
    + destruct (IH l Hl Hr) as (a & x & b & -> & Hrx & Hlast).
      by exists (e :: a), x, b.
Qed.

Lemma merge_into_later_length count i other v found v' :
  merge_into_later count i other v = Ok (found, v') → length v' = length v.
Proof.
  revert other. induction count as [|count IH]; intros other; csimpl.
  - by intros [= _ <-].
  - unfold at_index, assign_index.
    destruct (v !! other); csimpl; [|done]. destruct (v !! i); csimpl; [|done].
    repeat (case_bool_decide; csimpl; [|apply IH]).
    case_decide; csimpl; [|done]. intros [= _ <-]. apply length_insert.
Qed.

Lemma merge_duplicates_length count iend i size v size' v' :
  (size ≤ i)%nat → (i + count ≤ length v)%nat →
  merge_duplicates count iend i size v = Ok (size', v') →
  length v' = length v ∧ (size ≤ size' ≤ i + count)%nat.
Proof.
  revert i size v. induction count as [|count IH]; intros i size v Hs Hi; csimpl.
  - intros [= <- <-]. split; [done|lia].
  - destruct (merge_into_later _ _ _ _) as [[found v1]| |] eqn:Hinner; csimpl; try done.
    apply merge_into_later_length in Hinner.
    destruct found; csimpl.
    + intros Hrest. apply IH in Hrest; [|lia|rewrite Hinner; lia].
      rewrite <- Hinner. split; [tauto|lia].
    + unfold at_index, assign_index. destruct (v1 !! i); csimpl; [|done].
      case_decide; csimpl; [|done].
      intros Hrest. apply IH in Hrest; [|lia|rewrite length_insert, Hinner; lia].
      rewrite length_insert in Hrest. rewrite <- Hinner. split; [tauto|lia].
Qed.

(** X1.  The two loops of lines 289-319, run on any vector from any start
    index within it, complete without an access out of range; the
    compacted part ends between the start index and the end of the
    vector, so the final [resize] never enlarges it; the vector keeps its
    length and its part before the start index; and the records kept are
    as many as there are different keys after the start index. *)
Theorem merge_duplicates_in_bounds v (start : nat) :
  (start ≤ length v)%nat →
  ∃ size' v',
    merge_duplicates (length v - start) (length v) start start v = Ok (size', v') ∧
    (start ≤ size' ≤ length v)%nat ∧
    length v' = length v ∧
    take start v' = take start v ∧
    (size' - start)%nat = length (remove_dups (edge_key <$> drop start v)).
Proof.
  intros Hstart.
  destruct (merge_duplicates_merged (length v - start) start start v)
    as (size' & v' & Hrun & Htake); [done|done|done|].
  exists size', v'. split; [done|].
  destruct (merge_duplicates_length (length v - start) (length v) start start v size' v')
    as [Hlen Hsize]; [done|lia|done|].
  assert (size' = start + length (merged (length v - start) (drop start v)))%nat as Hcount.
  { apply (f_equal length) in Htake.
    rewrite length_app, !length_take in Htake. lia. }
  split; [lia|]. split; [done|]. split.
  - replace (take start v') with (take start (take size' v'))
      by (rewrite take_take; f_equal; lia).
    rewrite Htake, take_app_le by (rewrite length_take; lia).
    rewrite take_take. f_equal. lia.
  - rewrite <- (merged_remove_dups (length v - start)) by (by rewrite length_drop).
    rewrite length_fmap. lia.
Qed.

End merge_more.

(** ** Real-mode ContractNode: what survives the merge, and the frame *)

Section real_more.
Context {D : Type} `{!ContractorDijkstraOps D}.
Variable INVALID_EDGE_WEIGHT : EdgeWeight.
Implicit Types (m : @Mem D) (node : NodeID) (range : list GraphEdge).

(** The loop over the incoming edges in real mode, with what it appends. *)
Lemma real_loop_appends node m :
  weights_cover node (GetAdjacentEdgeRange (graph m) node) m →
  ∃ m1 raw,
    for_each (contract_in_edge INVALID_EDGE_WEIGHT false node
                (GetAdjacentEdgeRange (graph m) node))
      (GetAdjacentEdgeRange (graph m) node) m = Ok m1 ∧
    inserted_edges m1 = inserted_edges m ++ raw ∧
    frame false node m m1.
Proof.
  intros [Hnode Hrange].
  destruct (contract_in_edges_total INVALID_EDGE_WEIGHT false node
              (GetAdjacentEdgeRange (graph m) node) (GetAdjacentEdgeRange (graph m) node) m)
    as (m1 & Hloop & F); [done|done|done|].
  pose proof F as (_ & _ & _ & _ & _ & raw & Hraw). by exists m1, raw.
Qed.

(** X2.  Of the records a real-mode ContractNode appends, the merge keeps
    one for each key, in the order of the last records with each key, and
    each record kept differs from the last appended record with its key
    in the flags only: duration, original-edge count and via node of
    earlier duplicates are dropped. *)
Theorem ContractNode_keeps_last_duplicate node m :
  weights_cover node (GetAdjacentEdgeRange (graph m) node) m →
  ∃ m1 raw kept,
    for_each (contract_in_edge INVALID_EDGE_WEIGHT false node
                (GetAdjacentEdgeRange (graph m) node))
      (GetAdjacentEdgeRange (graph m) node) m = Ok m1 ∧
    inserted_edges m1 = inserted_edges m ++ raw ∧
    ContractNode INVALID_EDGE_WEIGHT false node m =
      Ok (set_inserted_edges (inserted_edges m ++ kept) m1) ∧
    edge_key <$> kept = remove_dups (edge_key <$> raw) ∧
    ∀ r, r ∈ kept →
      ∃ before e after,
        raw = before ++ e :: after ∧ same_but_flags r e ∧
        edge_key r ∉ edge_key <$> after.
Proof.
  intros Hcover. destruct (real_loop_appends node m Hcover) as (m1 & raw & Hloop & Hraw & _).
  exists m1, raw, (merged (length raw) raw).
  split; [done|]. split; [done|]. split; [by apply ContractNode_real|].
  split; [by apply merged_remove_dups|]. intros r. by apply merged_last.
Qed.

(** X3.  When the records a real-mode ContractNode appends have pairwise
    different keys, the merge changes nothing: the outcome is the state
    after the loop over the incoming edges. *)
Theorem ContractNode_unique_keys_unmerged node m :
  weights_cover node (GetAdjacentEdgeRange (graph m) node) m →
  ∃ m1 raw,
    for_each (contract_in_edge INVALID_EDGE_WEIGHT false node
                (GetAdjacentEdgeRange (graph m) node))
      (GetAdjacentEdgeRange (graph m) node) m = Ok m1 ∧
    inserted_edges m1 = inserted_edges m ++ raw ∧
    (NoDup (edge_key <$> raw) → ContractNode INVALID_EDGE_WEIGHT false node m = Ok m1).
Proof.
  intros Hcover. destruct (real_loop_appends node m Hcover) as (m1 & raw & Hloop & Hraw & _).
  exists m1, raw. split; [done|]. split; [done|]. intros Hnd.
  rewrite (ContractNode_real INVALID_EDGE_WEIGHT node m m1 raw) by done.
  rewrite merged_unique, <- Hraw by done. by destruct m1.
Qed.

(** X4.  A real-mode ContractNode never writes through [stats] (null or
    not), the graph or the neighbour buffer; [node_weights] keeps its size
    and its entry for the contracted node, and changes at most at the
    sources of loops through the node; the edge buffer keeps the records
    it had before the call, in place. *)
Theorem ContractNode_real_frame node m :
  weights_cover node (GetAdjacentEdgeRange (graph m) node) m →
  ∃ m', ContractNode INVALID_EDGE_WEIGHT false node m = Ok m' ∧
    stats m' = stats m ∧
    graph m' = graph m ∧
    neighbours m' = neighbours m ∧
    length (node_weights m') = length (node_weights m) ∧
    node_weights m' !! node = node_weights m !! node ∧
    (∀ k, node_weights m' !! k = node_weights m !! k ∨
          loop_source node (GetAdjacentEdgeRange (graph m) node) k) ∧
    inserted_edges m `prefix_of` inserted_edges m'.
Proof.
  intros Hcover.
  destruct (real_loop_appends node m Hcover)
    as (m1 & raw & Hloop & Hraw & HG & HN & HL & HW & HS & _).
  eexists. split; [by eapply ContractNode_real|]. simpl.
  repeat (split; [done|]). split; [|by eexists].
  eapply (for_each_invariant
            (weights_differ_at_loops node (GetAdjacentEdgeRange (graph m) node) m)) in Hloop;
    [exact Hloop| by left |].
  intros e m2 m3 He H2 Hstep.
  eapply weights_differ_at_loops_trans; [exact H2|].
  by eapply contract_in_edge_weights.
Qed.

End real_more.

(** ** Real-mode ContractNode: the shape of the shortcuts *)

Section shortcut_shape.
Context {D : Type} `{!ContractorDijkstraOps D}.
Variable INVALID_EDGE_WEIGHT : EdgeWeight.
Implicit Types (m : @Mem D) (node : NodeID) (range : list GraphEdge)
  (r e x y : ContractorEdge) (l : list ContractorEdge).

Lemma register_target_real_step node src in_data out s s' :
  register_target INVALID_EDGE_WEIGHT false node src in_data out s = Ok s' →
  inserted_edges s'.1.1 = inserted_edges s.1.1 ∨
  (forward (GetEdgeData out) = true ∧ GetTarget out = src ∧
   inserted_edges s'.1.1 =
     inserted_edges s.1.1 ++ shortcut_pair node src (GetTarget out) in_data (GetEdgeData out)).
Proof.
  destruct s as [[m mw] k]. intros H. unfold register_target in H.
  destruct (forward (GetEdgeData out)) eqn:Hf; csimpl in *; [|injection H as <-; by left].
  case_bool_decide; csimpl in *; [injection H as <-; by left|].
  case_bool_decide as Ht; csimpl in *.
  - unfold read_node_weight, write_node_weight in H.
    destruct (node_weights m !! node); csimpl in *; [|done].
    case_bool_decide; csimpl in *; [|injection H as <-; by left].
    destruct (node_weights m !! src); csimpl in *; [|done].
    injection H as <-. right. split; [done|]. split; [done|].
    by rewrite insert_shortcuts_pair.
  - destruct (WasInserted _ _); csimpl in *; injection H as <-; by left.
Qed.

(** A property of lists of records that holds of the empty list, of
    concatenations and of every shortcut pair ContractNode can make holds
    of what the loop over the incoming edges appends. *)
Lemma real_loop_appends_closed (P : list ContractorEdge → Prop) node range ins m m1 :
  P [] → (∀ a b, P a → P b → P (a ++ b)) →
  (∀ in_edge out, in_edge ∈ ins → out ∈ range →
     backward (GetEdgeData in_edge) = true → GetTarget in_edge ≠ node →
     forward (GetEdgeData out) = true → GetTarget out ≠ node →
     P (shortcut_pair node (GetTarget in_edge) (GetTarget out)
          (GetEdgeData in_edge) (GetEdgeData out))) →
  for_each (contract_in_edge INVALID_EDGE_WEIGHT false node range) ins m = Ok m1 →
  ∃ raw, inserted_edges m1 = inserted_edges m ++ raw ∧ P raw.
Proof.
  intros Hnil Happ Hpair.
  set (R := λ m m' : @Mem D, ∃ new, inserted_edges m' = inserted_edges m ++ new ∧ P new).
  assert (∀ m, R m m) as Hrefl by (intros m0; exists []; by rewrite app_nil_r).
  assert (∀ m1 m2 m3, R m1 m2 → R m2 m3 → R m1 m3) as Htrans.
  { intros a b c (n1 & E1 & P1) (n2 & E2 & P2). exists (n1 ++ n2).
    rewrite E2, E1, app_assoc. eauto. }
  apply (for_each_invariant (R m)); [apply Hrefl|].
  intros e m2 m3 He H2 Hstep. eapply Htrans; [exact H2|].
  revert Hstep. apply (contract_in_edge_keeps INVALID_EDGE_WEIGHT R); try done.
  - intros m0 d. exists []. simpl. by rewrite app_nil_r.
  - intros m0 m0' _ [= <-]. apply Hrefl.
  - intros out s s' Hout Hb Hne Hstep.
    apply register_target_real_step in Hstep as [Heq|(Hf & Ht & Heq)].
    + exists []. by rewrite app_nil_r.
    + eexists. split; [exact Heq|]. apply Hpair; try done. congruence.
  - intros out m0 m0' Hout Hb Hne. rewrite shortcut_if_needed_real. intros [= <-].
    eexists. split; [done|]. unfold shortcuts_for. case_bool_decide as Hc; [|done].
    destruct Hc as (? & ? & _). by apply Hpair.
Qed.

(** A record of a shortcut through [node] made from two adjacent edges. *)
Definition shortcut_via node range r : Prop :=
  ∃ in_edge out_edge,
    in_edge ∈ range ∧ out_edge ∈ range ∧
    backward (GetEdgeData in_edge) = true ∧ forward (GetEdgeData out_edge) = true ∧
    GetTarget in_edge ≠ node ∧ GetTarget out_edge ≠ node ∧
    r ∈ shortcut_pair node (GetTarget in_edge) (GetTarget out_edge)
          (GetEdgeData in_edge) (GetEdgeData out_edge).

(** X5.  Every record a real-mode ContractNode leaves in the edge buffer
    beyond those it found there is a shortcut with the contracted node as
    via node and with at least one direction flag set; neither end is the
    contracted node; its ends are the far ends of a backward-traversable
    and of a forward-traversable adjacent edge of the node, and its
    weight, duration and original-edge count are the sums over these two
    edges. *)
Theorem ContractNode_shortcuts_wellformed node m :
  weights_cover node (GetAdjacentEdgeRange (graph m) node) m →
  ∃ m' kept,
    ContractNode INVALID_EDGE_WEIGHT false node m = Ok m' ∧
    inserted_edges m' = inserted_edges m ++ kept ∧
    ∀ r, r ∈ kept →
      shortcut (data r) = true ∧ id (data r) = node ∧
      source r ≠ node ∧ target r ≠ node ∧
      (forward (data r) = true ∨ backward (data r) = true) ∧
      ∃ in_edge out_edge,
        in_edge ∈ GetAdjacentEdgeRange (graph m) node ∧
        out_edge ∈ GetAdjacentEdgeRange (graph m) node ∧
        backward (GetEdgeData in_edge) = true ∧ forward (GetEdgeData out_edge) = true ∧
        weight (data r) =
          EdgeWeight_add (weight (GetEdgeData in_edge)) (weight (GetEdgeData out_edge)) ∧
        duration (data r) =
          EdgeWeight_add (duration (GetEdgeData in_edge)) (duration (GetEdgeData out_edge)) ∧
        originalEdges (data r) =
          originalEdges (GetEdgeData in_edge) + originalEdges (GetEdgeData out_edge) ∧
        ((source r = GetTarget in_edge ∧ target r = GetTarget out_edge) ∨
         (source r = GetTarget out_edge ∧ target r = GetTarget in_edge)).
Proof.
  intros Hcover.
  destruct (real_loop_appends INVALID_EDGE_WEIGHT node m Hcover)
    as (m1 & raw & Hloop & Hraw & _).
  destruct (real_loop_appends_closed
              (Forall (shortcut_via node (GetAdjacentEdgeRange (graph m) node)))
              node (GetAdjacentEdgeRange (graph m) node) (GetAdjacentEdgeRange (graph m) node)
              m m1) as (raw' & Hraw' & Hvia); [done| | |exact Hloop|].
  { intros a b ??. by apply Forall_app. }
  { intros in_edge out Hin Hout Hb Hne Hf Hnt.
    apply Forall_forall. intros r Hr. by exists in_edge, out. }
  rewrite Hraw in Hraw'. apply app_inv_head in Hraw' as <-.
  exists (set_inserted_edges (inserted_edges m ++ merged (length raw) raw) m1),
    (merged (length raw) raw).
  split; [by apply ContractNode_real|]. split; [done|].
  intros r Hr.
  destruct (merged_origin _ _ _ eq_refl Hr) as (e & He & Hre).
  rewrite Forall_forall in Hvia.
  destruct (Hvia e He) as (in_edge & out_edge & Hin & Hout & Hb & Hf & Hni & Hno & Hpair).
  assert (forward (data r) = true ∨ backward (data r) = true) as Hflag.
  { unfold shortcut_pair in Hpair.
    apply elem_of_cons in Hpair as [->|Hpair]; [|apply elem_of_cons in Hpair as [->|Hpair]].
    - left. apply (proj2 (merged_flag forward (length raw) raw r
                            forward_flag_of_or eq_refl Hr)).
      eexists. split; [exact He|]. split; [|done]. symmetry. by apply same_but_flags_key.
    - right. apply (proj2 (merged_flag backward (length raw) raw r
                             backward_flag_of_or eq_refl Hr)).
      eexists. split; [exact He|]. split; [|done]. symmetry. by apply same_but_flags_key.
    - by apply elem_of_nil in Hpair. }
  destruct Hre as (Hs & Ht & Hw & Hd & Hi & Ho & Hsc).
  rewrite Hs, Ht, Hw, Hd, Hi, Ho, Hsc.
  unfold shortcut_pair in Hpair.
  apply elem_of_cons in Hpair as [->|Hpair]; [|apply elem_of_cons in Hpair as [->|Hpair]];
    [| |by apply elem_of_nil in Hpair]; simpl;
    (repeat (split; [done|])); exists in_edge, out_edge; repeat (split; [done|]); tauto.
Qed.

(** Two records that are one shortcut seen from its two ends. *)
Definition mirrored x y : Prop :=
  source y = target x ∧ target y = source x ∧
  weight (data y) = weight (data x) ∧ shortcut (data y) = shortcut (data x) ∧
  forward (data y) = backward (data x) ∧ backward (data y) = forward (data x).

Definition mirror_closed l : Prop := ∀ x, x ∈ l → ∃ y, y ∈ l ∧ mirrored x y.

Lemma mirrored_sym x y : mirrored x y → mirrored y x.
Proof. unfold mirrored. intuition congruence. Qed.

Lemma mirrored_key x y x' y' :
  mirrored x y → edge_key x' = edge_key x → mirrored x' y' → edge_key y' = edge_key y.
Proof. unfold mirrored, edge_key. intros. simplify_eq. intuition congruence. Qed.

Lemma mirror_closed_flagged l x y :
  mirror_closed l → mirrored x y →
  flagged forward (edge_key y) l ↔ flagged backward (edge_key x) l.
Proof.
  intros Hl Hxy. split.
  - intros (e & He & Hk & Hf). destruct (Hl e He) as (e' & He' & Hm).
    exists e'. split; [done|]. split.
    + eapply (mirrored_key y x e e'); [by apply mirrored_sym|done|done].
    + destruct Hm as (_ & _ & _ & _ & _ & ->). done.
  - intros (e & He & Hk & Hf). destruct (Hl e He) as (e' & He' & Hm).
    exists e'. split; [done|]. split.
    + eapply (mirrored_key x y e e'); done.
    + destruct Hm as (_ & _ & _ & _ & -> & _). done.
Qed.

(** X6.  The records a real-mode ContractNode leaves beyond those it
    found come with their mirror images: for each record kept there is a
    record kept between the same two nodes the other way round, with the
    same weight and with the forward and backward flags exchanged. *)
Theorem ContractNode_shortcuts_mirrored node m :
  weights_cover node (GetAdjacentEdgeRange (graph m) node) m →
  ∃ m' kept,
    ContractNode INVALID_EDGE_WEIGHT false node m = Ok m' ∧
    inserted_edges m' = inserted_edges m ++ kept ∧
    ∀ r, r ∈ kept → ∃ r', r' ∈ kept ∧ mirrored r r'.
Proof.
  intros Hcover.
  destruct (real_loop_appends INVALID_EDGE_WEIGHT node m Hcover)
    as (m1 & raw & Hloop & Hraw & _).
  destruct (real_loop_appends_closed mirror_closed node
              (GetAdjacentEdgeRange (graph m) node) (GetAdjacentEdgeRange (graph m) node) m m1)
    as (raw' & Hraw' & Hclosed); [by intros ? ?%elem_of_nil| | |exact Hloop|].
  { intros a b Ha Hb x [Hx|Hx]%elem_of_app.
    - destruct (Ha x Hx) as (y & ? & ?). exists y. split; [|done]. apply elem_of_app. by left.
    - destruct (Hb x Hx) as (y & ? & ?). exists y. split; [|done]. apply elem_of_app. by right. }
  { intros in_edge out _ _ _ _ _ _ x. unfold shortcut_pair.
    intros [->|[->|?%elem_of_nil]%elem_of_cons]%elem_of_cons; [| |done].
    - eexists. split; [right; left|]. by repeat split.
    - eexists. split; [left|]. by repeat split. }
  rewrite Hraw in Hraw'. apply app_inv_head in Hraw' as <-.
  exists (set_inserted_edges (inserted_edges m ++ merged (length raw) raw) m1),
    (merged (length raw) raw).
  split; [by apply ContractNode_real|]. split; [done|].
  intros r Hr.
  destruct (merged_origin _ _ _ eq_refl Hr) as (e & He & Hre).
  destruct (Hclosed e He) as (e' & He' & Hee').
  assert (edge_key e' ∈ edge_key <$> merged (length raw) raw) as Hk'.
  { apply merged_keys; [done|]. by apply list_elem_of_fmap_2. }
  apply list_elem_of_fmap in Hk' as (r' & Hkr' & Hr').
  exists r'. split; [done|].
  pose proof (same_but_flags_key _ _ Hre) as Hkr.
  assert (∀ f g, flag_of_or f → flag_of_or g →
            (flagged f (edge_key r') raw ↔ flagged g (edge_key r) raw) →
            f (data r') = g (data r)) as Hflags.
  { intros f g Hf Hg Hiff.
    pose proof (merged_flag f (length raw) raw r' Hf eq_refl Hr') as H1.
    pose proof (merged_flag g (length raw) raw r Hg eq_refl Hr) as H2.
    destruct (f (data r')), (g (data r)); try done.
    - symmetry. apply H2, Hiff, H1. done.
    - apply H1, Hiff, H2. done. }
  unfold edge_key in Hkr, Hkr'. destruct Hee' as (Hs & Ht & Hw & Hsc & Hfb & Hbf).
  injection Hkr as Hr1 Hr2 Hr3 Hr4. injection Hkr' as He1 He2 He3 He4.
  assert (mirrored e e') as Hee' by done.
  repeat split; try congruence.
  - apply (Hflags forward backward); [apply forward_flag_of_or|apply backward_flag_of_or|].
    replace (edge_key r') with (edge_key e') by (unfold edge_key; congruence).
    replace (edge_key r) with (edge_key e) by (unfold edge_key; congruence).
    by apply mirror_closed_flagged.
  - apply (Hflags backward forward); [apply backward_flag_of_or|apply forward_flag_of_or|].
    replace (edge_key r') with (edge_key e') by (unfold edge_key; congruence).
    replace (edge_key r) with (edge_key e) by (unfold edge_key; congruence).
    symmetry. apply mirror_closed_flagged; [done|]. by apply mirrored_sym.
Qed.

End shortcut_shape.

(** ** Runs that need no node weights, and runs that add nothing *)

Section without_weights.
Context {D : Type} `{!ContractorDijkstraOps D}.
Variable INVALID_EDGE_WEIGHT : EdgeWeight.
Implicit Types (m : @Mem D) (node : NodeID) (range ins : list GraphEdge).

(** A loop over the incoming edges whose steps all complete under an
    invariant completes, and keeps the invariant. *)
Lemma contract_in_edges_total_under (I : Mem → Prop) sim node range ins m :
  I m →
  (∀ m d, I m → I (set_dijkstra d m)) →
  (∀ e m, e ∈ ins → GetTarget e ≠ node → I m →
     ∃ m1, counted sim (GetEdgeData e) m = Ok m1 ∧ I m1) →
  (∀ e out s, e ∈ ins → out ∈ range →
     backward (GetEdgeData e) = true → GetTarget e ≠ node → I s.1.1 →
     ∃ s', register_target INVALID_EDGE_WEIGHT sim node (GetTarget e) (GetEdgeData e) out s
             = Ok s' ∧ I s'.1.1) →
  (∀ e out m, e ∈ ins → out ∈ range →
     backward (GetEdgeData e) = true → GetTarget e ≠ node → I m →
     ∃ m', shortcut_if_needed sim node (GetTarget e) (GetEdgeData e) out m = Ok m' ∧ I m') →
  ∃ m', for_each (contract_in_edge INVALID_EDGE_WEIGHT sim node range) ins m = Ok m' ∧ I m'.
Proof.
  intros Hm Hd Hcount Hreg Hshort.
  apply (for_each_total I); [done|].
  intros e m0 He Hm0.
  destruct (decide (GetTarget e = node)) as [Hself|Hne];
    [rewrite contract_in_edge_self by done; eauto|].
  rewrite contract_in_edge_unfold by done.
  destruct (Hcount e m0 He Hne Hm0) as (m1 & -> & Hm1). csimpl.
  destruct (backward (GetEdgeData e)) eqn:Hb; csimpl; [|eauto].
  destruct (for_each_total (λ s, I s.1.1)
              (register_target INVALID_EDGE_WEIGHT sim node (GetTarget e) (GetEdgeData e))
              range (seeded (GetTarget e) m1, 0, 0%nat)) as (s & -> & Hs).
  { simpl. by apply Hd. }
  { intros out s0 Hout Hs0. by apply Hreg. }
  csimpl. apply (for_each_total I).
  - by apply Hd.
  - intros out m2 Hout Hm2. by apply Hshort.
Qed.

Lemma counted_total sim in_data m :
  has_stats sim m →
  ∃ m1, counted sim in_data m = Ok m1 ∧
    node_weights m1 = node_weights m ∧ inserted_edges m1 = inserted_edges m ∧
    graph m1 = graph m ∧ has_stats sim m1 ∧
    (∀ st, stats m = Some st → ∃ st', stats m1 = Some st' ∧
       edges_added_count st' = edges_added_count st ∧
       original_edges_added_count st' = original_edges_added_count st).
Proof.
  unfold has_stats, counted, assert_stats. intros Hst. destruct sim; csimpl.
  - destruct (Hst eq_refl) as [st ->]. csimpl. eexists. split; [done|].
    repeat split; eauto. intros st0 [= <-]. eauto.
  - exists m. repeat split; eauto.
Qed.

(** X7.  When no node other than the contracted one is the far end both
    of a backward-traversable and of a forward-traversable adjacent edge
    (the node lies on no loop), ContractNode completes in both modes
    without reading [node_weights], whatever its size, and leaves it as it
    is (simulation needs its statistics record). *)
Theorem ContractNode_without_loops (RUNSIMULATION : bool) node m :
  (∀ k, ¬ loop_source node (GetAdjacentEdgeRange (graph m) node) k) →
  (RUNSIMULATION = true → is_Some (stats m)) →
  ∃ m', ContractNode INVALID_EDGE_WEIGHT RUNSIMULATION node m = Ok m' ∧
        node_weights m' = node_weights m.
Proof.
  intros Hnoloop Hstats.
  set (range := GetAdjacentEdgeRange (graph m) node) in *.
  destruct (contract_in_edges_total_under
              (λ m', node_weights m' = node_weights m ∧ has_stats RUNSIMULATION m' ∧
                     ∃ new, inserted_edges m' = inserted_edges m ++ new)
              RUNSIMULATION node range range m)
    as (m1 & Hloop & Hnw & _ & raw & Hraw).
  - split; [done|]. split; [done|]. exists []. by rewrite app_nil_r.
  - intros m0 d (? & ? & ?). done.
  - intros e m0 _ _ (Hnw & Hst & new & Hnew).
    destruct (counted_total RUNSIMULATION (GetEdgeData e) m0 Hst)
      as (m1 & -> & Hnw1 & Hie1 & _ & Hst1 & _).
    exists m1. split; [done|]. rewrite Hnw1, Hie1. eauto.
  - intros e out [[m0 mw] k] He Hout Hb Hne (Hnw & Hst & new & Hnew). simpl in *.
    assert (¬ (forward (GetEdgeData out) = true ∧ GetTarget out = GetTarget e)) as Hnl.
    { intros [Hf Ht]. apply (Hnoloop (GetTarget e)). split; [done|]. by exists e, out. }
    unfold register_target.
    destruct (forward (GetEdgeData out)) eqn:Hf; csimpl; [|eauto 10].
    case_bool_decide; csimpl; [eauto 10|].
    rewrite bool_decide_eq_false_2 by (intros ?; by apply Hnl).
    destruct (WasInserted _ _); csimpl; eexists; (split; [done|]); simpl; eauto.
  - intros e out m0 _ _ _ _ (Hnw & Hst & new & Hnew).
    destruct (shortcut_if_needed_total RUNSIMULATION node (GetTarget e) (GetEdgeData e) out m0 Hst)
      as (m1 & Hstep & F).
    exists m1. split; [done|].
    rewrite (shortcut_if_needed_weights _ _ _ _ _ _ _ Hstep).
    split; [done|]. split; [by eapply shortcut_if_needed_has_stats|].
    destruct RUNSIMULATION.
    + destruct F as (_ & _ & _ & _ & -> & _). eauto.
    + destruct F as (_ & _ & _ & _ & _ & new' & ->). rewrite Hnew, <- app_assoc. eauto.
  - destruct RUNSIMULATION.
    + exists m1. by rewrite ContractNode_simulation.
    + eexists. split; [by eapply ContractNode_real|]. done.
Qed.

(** The counters of added edges are as they were. *)
Definition same_added_counts m m' : Prop :=
  ∀ st, stats m = Some st →
    ∃ st', stats m' = Some st' ∧
      edges_added_count st' = edges_added_count st ∧
      original_edges_added_count st' = original_edges_added_count st.

(** X8.  A node that no edge leaves forward to another node, or that no
    edge enters (none is traversable backward from another node), is
    contracted without a shortcut: ContractNode completes in both modes,
    whatever [node_weights] holds, with the edge buffer, [node_weights]
    and the counters of added edges as they were. *)
Theorem ContractNode_dead_end (RUNSIMULATION : bool) node m :
  (∀ e, e ∈ GetAdjacentEdgeRange (graph m) node →
        forward (GetEdgeData e) = true → GetTarget e = node) ∨
  (∀ e, e ∈ GetAdjacentEdgeRange (graph m) node →
        backward (GetEdgeData e) = true → GetTarget e = node) →
  (RUNSIMULATION = true → is_Some (stats m)) →
  ∃ m', ContractNode INVALID_EDGE_WEIGHT RUNSIMULATION node m = Ok m' ∧
        inserted_edges m' = inserted_edges m ∧
        node_weights m' = node_weights m ∧
        same_added_counts m m'.
Proof.
  intros Hdead Hstats.
  set (range := GetAdjacentEdgeRange (graph m) node) in *.
  destruct (contract_in_edges_total_under
              (λ m', inserted_edges m' = inserted_edges m ∧ node_weights m' = node_weights m ∧
                     has_stats RUNSIMULATION m' ∧ same_added_counts m m')
              RUNSIMULATION node range range m)
    as (m1 & Hloop & Hie & Hnw & _ & Hadded).
  - repeat split; try done. intros st ?. by exists st.
  - intros m0 d (? & ? & ? & ?). done.
  - intros e m0 _ _ (Hie & Hnw & Hst & Hadd).
    destruct (counted_total RUNSIMULATION (GetEdgeData e) m0 Hst)
      as (m1 & -> & Hnw1 & Hie1 & _ & Hst1 & Hadd1).
    exists m1. split; [done|]. rewrite Hnw1, Hie1. repeat split; try done.
    intros st Hs. destruct (Hadd st Hs) as (st0 & Hs0 & ? & ?).
    destruct (Hadd1 st0 Hs0) as (st1 & Hs1 & ? & ?). exists st1. split; [done|]. lia.
  - intros e out s He Hout Hb Hne Hs. exists s. split; [|done].
    destruct s as [[m0 mw] k]. unfold register_target.
    destruct Hdead as [Hnofwd|Hnobwd]; [|by destruct Hne; apply Hnobwd].
    destruct (forward (GetEdgeData out)) eqn:Hf; csimpl; [|done].
    by rewrite bool_decide_eq_true_2 by (symmetry; by apply Hnofwd).
  - intros e out m0 He Hout Hb Hne Hm0. exists m0. split; [|done].
    unfold shortcut_if_needed.
    destruct Hdead as [Hnofwd|Hnobwd]; [|by destruct Hne; apply Hnobwd].
    destruct (forward (GetEdgeData out)) eqn:Hf; csimpl; [|done].
    by rewrite bool_decide_eq_true_2 by (by apply Hnofwd).
  - destruct RUNSIMULATION.
    + exists m1. by rewrite ContractNode_simulation.
    + eexists. split.
      * apply (ContractNode_real INVALID_EDGE_WEIGHT node m m1 []); [done|].
        by rewrite app_nil_r.
      * simpl. by rewrite app_nil_r.
Qed.

End without_weights.

(** ** Simulation: what the counters of added edges count *)

Section simulation_counts.
Context {D : Type} `{!ContractorDijkstraOps D}.
Variable INVALID_EDGE_WEIGHT : EdgeWeight.
#[local] Arguments register_target : simpl never.
#[local] Arguments shortcut_if_needed : simpl never.
#[local] Arguments contract_in_edge : simpl never.
Implicit Types (m : @Mem D) (node src : NodeID) (range ins : list GraphEdge)
  (st : ContractionStats).








(** The records of the loop shortcut the first inner loop records at the
    outgoing edge [out], given the weight [w] of the contracted node. *)
Definition loop_shortcuts_for node src (in_data : ContractorEdgeData) (w : Z)
    (out : GraphEdge) : list ContractorEdge :=
  if bool_decide (forward (GetEdgeData out) = true ∧ GetTarget out = src ∧
                  EdgeWeight_add (weight in_data) (weight (GetEdgeData out)) < w)
  then shortcut_pair node src src in_data (GetEdgeData out)
  else [].







End simulation_counts.

(** ** Real-mode ContractNode: the shortcuts of each turn *)

Section searched_turns.
Context {D : Type} `{!ContractorDijkstraOps D}.
Variable INVALID_EDGE_WEIGHT : EdgeWeight.
Implicit Types (m : @Mem D) (node src : NodeID) (range ins : list GraphEdge)
  (g : list (list GraphEdge)) (d : D).
#[local] Arguments register_target : simpl never.
#[local] Arguments shortcut_if_needed : simpl never.
#[local] Arguments contract_in_edge : simpl never.

(** What the turn for [in_edge] appends in real mode, from the state [d]
    the witness search has when the turn begins and the weight [w] of the
    contracted node: nothing unless the edge is traversable backward from
    a source other than the node; else first the shortcuts of loops at
    the source, then for every outgoing edge in order the two records of
    a shortcut ([shortcut_pair]) exactly when the edge is traversable
    forward, its target is not the node and the path weight is less than
    the key the target has after the witness search of the turn
    ([shortcuts_for]). *)
Definition turn_shortcuts node range g (w : EdgeWeight) (in_edge : GraphEdge) d
  : list ContractorEdge :=
  if bool_decide (GetTarget in_edge ≠ node ∧ backward (GetEdgeData in_edge) = true)
  then
    flat_map (loop_shortcuts_for node (GetTarget in_edge) (GetEdgeData in_edge) w) range ++
    flat_map (shortcuts_for node (GetTarget in_edge) (GetEdgeData in_edge)
                (witness_search INVALID_EDGE_WEIGHT false node range g in_edge d)) range
  else [].

(** The state in which the turn for [in_edge] leaves the witness search. *)
Definition turn_search node range g (in_edge : GraphEdge) d : D :=
  if bool_decide (GetTarget in_edge ≠ node ∧ backward (GetEdgeData in_edge) = true)
  then witness_search INVALID_EDGE_WEIGHT false node range g in_edge d
  else d.

(** What the turns for the incoming edges [ins] append, turn by turn, the
    witness search passing from each turn to the next. *)
Fixpoint shortcuts_of_turns node range g (w : EdgeWeight) ins d
  : list (list ContractorEdge) :=
  match ins with
  | [] => []
  | in_edge :: ins' =>
      turn_shortcuts node range g w in_edge d
      :: shortcuts_of_turns node range g w ins' (turn_search node range g in_edge d)
  end.

Lemma register_target_real_loops node src in_data w out m mw k :
  src ≠ node → node_weights m !! node = Some w → is_Some (node_weights m !! src) →
  ∃ m' mw' k',
    register_target INVALID_EDGE_WEIGHT false node src in_data out (m, mw, k)
      = Ok (m', mw', k') ∧
    inserted_edges m' = inserted_edges m ++ loop_shortcuts_for node src in_data w out ∧
    node_weights m' !! node = Some w ∧
    length (node_weights m') = length (node_weights m).
Proof.
  intros Hne Hw Hsrc. unfold loop_shortcuts_for.
  destruct (decide (forward (GetEdgeData out) = true ∧ GetTarget out = src)) as [[Hf Ht]|Hno].
  - rewrite (register_target_loop INVALID_EDGE_WEIGHT false node src in_data out m mw k w)
      by done.
    case_bool_decide as Hlt.
    + rewrite bool_decide_eq_true_2 by done. rewrite insert_shortcuts_pair.
      eexists _, _, _. split; [done|]. simpl. split; [done|].
      by rewrite length_insert, list_lookup_insert_ne.
    + rewrite bool_decide_eq_false_2 by (intros (_ & _ & ?); done).
      eexists _, _, _. split; [done|]. by rewrite app_nil_r.
  - rewrite bool_decide_eq_false_2 by (intros (? & ? & _); by apply Hno).
    rewrite app_nil_r. unfold register_target.
    destruct (forward (GetEdgeData out)) eqn:Hf; csimpl; [|by eexists _, _, _].
    case_bool_decide; csimpl; [by eexists _, _, _|].
    rewrite bool_decide_eq_false_2 by (intros ?; by apply Hno).
    destruct (WasInserted _ _); csimpl; by eexists _, _, _.
Qed.

Lemma register_targets_real_loops node src in_data w range m mw k :
  src ≠ node → node_weights m !! node = Some w → is_Some (node_weights m !! src) →
  ∃ m' mw' k',
    for_each (register_target INVALID_EDGE_WEIGHT false node src in_data) range (m, mw, k)
      = Ok (m', mw', k') ∧
    inserted_edges m' =
      inserted_edges m ++ flat_map (loop_shortcuts_for node src in_data w) range ∧
    node_weights m' !! node = Some w ∧
    length (node_weights m') = length (node_weights m).
Proof.
  intros Hne. revert m mw k.
  induction range as [|out range IH]; intros m mw k Hw Hsrc; simpl.
  - eexists _, _, _. split; [done|]. by rewrite app_nil_r.
  - destruct (register_target_real_loops node src in_data w out m mw k)
      as (m1 & mw1 & k1 & -> & Hi1 & Hw1 & HL1); try done.
    csimpl.
    destruct (IH m1 mw1 k1) as (m2 & mw2 & k2 & -> & Hi2 & Hw2 & HL2); try done.
    { apply lookup_lt_is_Some. rewrite HL1. by apply lookup_lt_is_Some. }
    eexists _, _, _. split; [done|]. rewrite Hi2, Hi1, <- app_assoc.
    split; [done|]. split; [done|]. congruence.
Qed.

(** One turn of the loop over the incoming edges in real mode. *)
Lemma contract_in_edge_real_turn `{!ContractorDijkstraLaws D} node range w e m :
  node_weights m !! node = Some w → is_Some (node_weights m !! GetTarget e) →
  ∃ m',
    contract_in_edge INVALID_EDGE_WEIGHT false node range e m = Ok m' ∧
    inserted_edges m' =
      inserted_edges m ++ turn_shortcuts node range (graph m) w e (dijkstra m) ∧
    dijkstra m' = turn_search node range (graph m) e (dijkstra m) ∧
    graph m' = graph m ∧ node_weights m' !! node = Some w ∧
    length (node_weights m') = length (node_weights m).
Proof.
  intros Hw Hsrc. unfold turn_shortcuts, turn_search.
  destruct (decide (GetTarget e = node)) as [Hself|Hne].
  { rewrite contract_in_edge_self by done. exists m.
    rewrite bool_decide_eq_false_2 by (intros [? _]; done). by rewrite app_nil_r. }
  destruct (backward (GetEdgeData e)) eqn:Hb.
  - rewrite bool_decide_eq_true_2 by done.
    destruct (register_targets_real_loops node (GetTarget e) (GetEdgeData e) w range
                (seeded (GetTarget e) m) 0 0%nat)
      as (m3 & mw & k & Hr & Hi3 & Hw3 & HL3); try done.
    assert (graph m3 = graph m) as HG3.
    { apply (for_each_invariant (λ s, graph s.1.1 = graph m)) in Hr; [exact Hr|done|].
      intros out s s' _ <- Hstep. by eapply register_target_graph. }
    assert (contract_in_edge INVALID_EDGE_WEIGHT false node range e m =
            Ok (set_inserted_edges
                  (inserted_edges m3 ++
                   flat_map (shortcuts_for node (GetTarget e) (GetEdgeData e)
                               (dijkstra (searched false node mw k m3))) range)
                  (searched false node mw k m3))) as Hturn.
    { rewrite (contract_in_edge_backward _ _ _ _ _ m m) by done.
      rewrite Hr. csimpl. by rewrite shortcuts_real. }
    pose proof (contract_in_edge_search INVALID_EDGE_WEIGHT false node range e m _
                  Hne Hb Hturn) as Hd.
    eexists. split; [exact Hturn|]. simpl in *.
    rewrite <- Hd, Hi3, <- app_assoc. by rewrite HG3.
  - rewrite contract_in_edge_not_backward by done. exists m.
    rewrite bool_decide_eq_false_2 by (intros [_ ?]; congruence). by rewrite app_nil_r.
Qed.

Lemma contract_in_edges_real_turns `{!ContractorDijkstraLaws D} node range w ins m :
  node_weights m !! node = Some w →
  (∀ e, e ∈ ins → (GetTarget e < length (node_weights m))%nat) →
  ∃ m1,
    for_each (contract_in_edge INVALID_EDGE_WEIGHT false node range) ins m = Ok m1 ∧
    inserted_edges m1 =
      inserted_edges m ++ concat (shortcuts_of_turns node range (graph m) w ins (dijkstra m)).
Proof.
  revert m. induction ins as [|e ins IH]; intros m Hw Hins; simpl.
  - exists m. by rewrite app_nil_r.
  - destruct (contract_in_edge_real_turn node range w e m)
      as (m' & -> & Hi & Hd & HG & Hw' & HL); [done| |].
    { apply lookup_lt_is_Some. apply Hins. by left. }
    csimpl. destruct (IH m') as (m1 & -> & Hi1); [done| |].
    { intros e' He'. rewrite HL. apply Hins. by right. }
    exists m1. split; [done|]. by rewrite Hi1, Hi, HG, Hd, <- app_assoc.
Qed.

(** C1.  In real mode the loop of ContractNode over the incoming edges
    completes and appends to [inserted_edges], turn by turn, what
    [shortcuts_of_turns] says.  The witness search of a turn
    ([witness_search]) is the run, with the full budget, from the source
    towards the targets of the forward edges that lead neither to the
    node nor to the source.  For every incoming edge that is traversable
    backward and every outgoing edge that is traversable forward, with
    target other than the node, the turn appends the two records of a
    shortcut exactly when the path weight is less than the key of the
    target after that search ([shortcuts_for]); the path weight is the
    32-bit sum [EdgeWeight_add in.weight out.weight].  The two records
    ([shortcut_pair]) go from source to target with only the forward flag
    and from target to source with only the backward flag; both are
    shortcuts through the node with the path weight, the 32-bit sum of
    the durations and the sum of the original-edge counts.  (The merge of
    duplicates follows.) *)
Theorem C1_shortcut_iff_no_witness `{!ContractorDijkstraLaws D} node m w :
  weights_cover node (GetAdjacentEdgeRange (graph m) node) m →
  node_weights m !! node = Some w →
  ∃ m1 turns,
    turns = shortcuts_of_turns node (GetAdjacentEdgeRange (graph m) node) (graph m) w
              (GetAdjacentEdgeRange (graph m) node) (dijkstra m) ∧
    for_each (contract_in_edge INVALID_EDGE_WEIGHT false node
                (GetAdjacentEdgeRange (graph m) node))
      (GetAdjacentEdgeRange (graph m) node) m = Ok m1 ∧
    inserted_edges m1 = inserted_edges m ++ concat turns ∧
    ContractNode INVALID_EDGE_WEIGHT false node m =
      Ok (set_inserted_edges
            (inserted_edges m ++ merged (length (concat turns)) (concat turns)) m1).
Proof.
  intros [Hnode Hrange] Hw.
  destruct (contract_in_edges_real_turns node (GetAdjacentEdgeRange (graph m) node) w
              (GetAdjacentEdgeRange (graph m) node) m)
    as (m1 & Hloop & Happ); [done|done|].
  eexists m1, _. split; [done|]. split; [done|]. split; [done|].
  by apply ContractNode_real.
Qed.

End searched_turns.

(** Contracting B where A -> B leads on to C and to D and A -> C is as
    good as the way through B: the search from A finds C at the path
    weight, so no shortcut to C, and does not find D, so the shortcut
    A -> D is recorded from both ends. *)
Lemma C1_witness :
  let m := Example.mem Example.detour [10; 10; 10; 10] None in
  let range := GetAdjacentEdgeRange (graph m) 1 in
  shortcuts_of_turns Example.INVALID_EDGE_WEIGHT 1 range (graph m) 10 range (dijkstra m) =
    [ shortcut_pair 1 0 3 (GetEdgeData (Example.edge 0 1 false true))
        (GetEdgeData (Example.edge 3 1 true false)); []; [] ] ∧
  ∃ m1 turns,
    turns = shortcuts_of_turns Example.INVALID_EDGE_WEIGHT 1 range (graph m) 10 range
              (dijkstra m) ∧
    for_each (contract_in_edge Example.INVALID_EDGE_WEIGHT false 1 range) range m = Ok m1 ∧
    inserted_edges m1 = inserted_edges m ++ concat turns ∧
    ContractNode Example.INVALID_EDGE_WEIGHT false 1 m =
      Ok (set_inserted_edges
            (inserted_edges m ++ merged (length (concat turns)) (concat turns)) m1).
Proof.
  intros m range. split; [vm_compute; reflexivity|].
  apply (C1_shortcut_iff_no_witness Example.INVALID_EDGE_WEIGHT 1%nat m 10).
  - apply weights_cover_Forall; [simpl; lia | repeat constructor; simpl; lia].
  - reflexivity.
Defined.

(** ** The scratch state of the witness search *)

Section scratch_state.
Context {D : Type} `{!ContractorDijkstraOps D}.
Variable INVALID_EDGE_WEIGHT : EdgeWeight.
Implicit Types (m : @Mem D) (node : NodeID) (range ins : list GraphEdge).
#[local] Arguments register_target : simpl never.
#[local] Arguments shortcut_if_needed : simpl never.
#[local] Arguments contract_in_edge : simpl never.

(** Equal but for the state of the witness search. *)
Definition same_but_dijkstra m1 m2 : Prop :=
  graph m1 = graph m2 ∧ node_weights m1 = node_weights m2 ∧
  inserted_edges m1 = inserted_edges m2 ∧ neighbours m1 = neighbours m2 ∧
  stats m1 = stats m2.

(** Two outcomes are the same failure, or memories equal but for the
    state of the witness search. *)
Definition outcomes_agree (r1 r2 : result (@Mem D)) : Prop :=
  match r1, r2 with
  | Ok m1, Ok m2 => same_but_dijkstra m1 m2
  | AssertionFailed, AssertionFailed => True
  | OutOfBounds, OutOfBounds => True
  | _, _ => False
  end.

Lemma outcomes_agree_refl r : outcomes_agree r r.
Proof. destruct r; simpl; done. Qed.

(** [Clear] leaves a state that does not depend on the state before. *)
Definition Clear_forgets : Prop := ∀ d d' : D, Clear d = Clear d'.

Lemma contract_in_edge_scratch sim node range e m1 m2 :
  Clear_forgets → same_but_dijkstra m1 m2 →
  outcomes_agree (contract_in_edge INVALID_EDGE_WEIGHT sim node range e m1)
                 (contract_in_edge INVALID_EDGE_WEIGHT sim node range e m2) ∧
  (GetTarget e ≠ node → backward (GetEdgeData e) = true →
   contract_in_edge INVALID_EDGE_WEIGHT sim node range e m1 =
   contract_in_edge INVALID_EDGE_WEIGHT sim node range e m2).
Proof.
  intros Hclear (HG & HW & HE & HN & HS).
  destruct (decide (GetTarget e = node)) as [Hself|Hne];
    [rewrite !contract_in_edge_self by done; by split|].
  rewrite !contract_in_edge_unfold by done.
  destruct m1 as [g1 w1 d1 e1 n1 s1], m2 as [g2 w2 d2 e2 n2 s2]. simpl in *. subst.
  unfold counted, assert_stats. simpl.
  destruct sim; [destruct s2 as [st|]|]; csimpl; try done;
    (destruct (backward (GetEdgeData e)); csimpl; [|by split]);
    unfold seeded, set_stats; simpl; rewrite (Hclear d1 d2);
    (split; [apply outcomes_agree_refl|done]).
Qed.

Lemma contract_in_edges_scratch sim node range ins m1 m2 :
  Clear_forgets → same_but_dijkstra m1 m2 →
  outcomes_agree (for_each (contract_in_edge INVALID_EDGE_WEIGHT sim node range) ins m1)
                 (for_each (contract_in_edge INVALID_EDGE_WEIGHT sim node range) ins m2) ∧
  ((∃ e, e ∈ ins ∧ GetTarget e ≠ node ∧ backward (GetEdgeData e) = true) →
   for_each (contract_in_edge INVALID_EDGE_WEIGHT sim node range) ins m1 =
   for_each (contract_in_edge INVALID_EDGE_WEIGHT sim node range) ins m2).
Proof.
  intros Hclear. revert m1 m2. induction ins as [|e ins IH]; intros m1 m2 Hsame; simpl.
  - split; [done|]. by intros (e & ?%elem_of_nil & _).
  - destruct (contract_in_edge_scratch sim node range e m1 m2 Hclear Hsame) as [Hagree Heq].
    destruct (decide (GetTarget e ≠ node ∧ backward (GetEdgeData e) = true)) as [[Hne Hb]|Hno].
    { rewrite (Heq Hne Hb). split; [apply outcomes_agree_refl|done]. }
    destruct (contract_in_edge _ sim node range e m1) as [m1'| |],
             (contract_in_edge _ sim node range e m2) as [m2'| |]; csimpl; try done.
    destruct (IH m1' m2' Hagree) as [IH1 IH2]. split; [done|].
    intros (e' & [->|He']%elem_of_cons & Hne & Hb); [by destruct Hno|]. apply IH2. eauto.
Qed.

(** X10.  If [Clear] of the witness search forgets the state it is given,
    the outcome of ContractNode does not depend on the state of the search
    it starts from: two runs from memories that differ in it only fail
    alike or end in memories that differ in it only, and end in the same
    memory when the node has an adjacent edge that is traversable backward
    from another node.  The scratch search of a worker can so be used
    again as the last contraction left it. *)
Theorem ContractNode_scratch_independent (RUNSIMULATION : bool) node m (d1 d2 : D) :
  Clear_forgets →
  outcomes_agree (ContractNode INVALID_EDGE_WEIGHT RUNSIMULATION node (set_dijkstra d1 m))
                 (ContractNode INVALID_EDGE_WEIGHT RUNSIMULATION node (set_dijkstra d2 m)) ∧
  ((∃ e, e ∈ GetAdjacentEdgeRange (graph m) node ∧
         GetTarget e ≠ node ∧ backward (GetEdgeData e) = true) →
   ContractNode INVALID_EDGE_WEIGHT RUNSIMULATION node (set_dijkstra d1 m) =
   ContractNode INVALID_EDGE_WEIGHT RUNSIMULATION node (set_dijkstra d2 m)).
Proof.
  intros Hclear. unfold ContractNode, ContractNode_range. simpl.
  destruct (contract_in_edges_scratch RUNSIMULATION node
              (GetAdjacentEdgeRange (graph m) node) (GetAdjacentEdgeRange (graph m) node)
              (set_dijkstra d1 m) (set_dijkstra d2 m) Hclear) as [Hagree Heq]; [done|].
  split; [|by intros ->%Heq].
  destruct (for_each _ _ (set_dijkstra d1 m)) as [m1| |],
           (for_each _ _ (set_dijkstra d2 m)) as [m2| |]; csimpl; try done.
  destruct RUNSIMULATION; csimpl; [done|].
  destruct Hagree as (HG & HW & HE & HN & HS). rewrite HE.
  destruct (merge_duplicates _ _ _ _ _) as [[size v]| |]; csimpl; try done.
Qed.

End scratch_state.

(** ** GetThreadData on a container in use *)

Section GetThreadData_more.
Context {D : Type} `{!ContractorDijkstraOps D}.
Implicit Types (c : @ThreadData.ThreadDataContainer) (h : list (@ThreadData.ContractorThreadData D))
  (threads : list nat).
#[local] Arguments ThreadData.GetThreadData : simpl never.

Lemma GetThreadData_grows c h t :
  let r := ThreadData.GetThreadData t (c, h) in
  ∃ k : nat,
    r.2.2 = h ++ replicate k (ThreadData.ContractorThreadData_new 4000) ∧
    size (ThreadData.data r.2.1) = (size (ThreadData.data c) + k)%nat ∧
    dom (ThreadData.data r.2.1) = {[t]} ∪ dom (ThreadData.data c) ∧
    ThreadData.number_of_nodes r.2.1 = ThreadData.number_of_nodes c ∧
    (∀ t' q, ThreadData.data c !! t' = Some q → ThreadData.data r.2.1 !! t' = Some q) ∧
    (∀ q, ThreadData.data c !! t = Some q → r.1 = q).
Proof.
  destruct (ThreadData.data c !! t) as [q|] eqn:Hslot; simpl.
  - rewrite (GetThreadData_later _ _ _ q) by done. exists 0%nat. simpl.
    split; [by rewrite app_nil_r|]. split; [lia|]. split; [|split; [done|]].
    + apply set_eq. intros x. rewrite elem_of_union, elem_of_singleton.
      split; [by right|]. intros [->|?]; [|done]. apply elem_of_dom. eauto.
    + split; [done|]. by intros ? [= ->].
  - rewrite GetThreadData_first by done. exists 1%nat. simpl.
    split; [done|]. split; [by rewrite map_size_insert_None by done; lia|].
    split; [by rewrite dom_insert_L|]. split; [done|]. split; [|done].
    intros t' q Hq. rewrite lookup_insert_ne; [done|]. congruence.
Qed.

(** X11.  On any container, in use or not, a schedule of calls of
    [GetThreadData] only appends objects of capacity 4000 to the free
    store, as many as it adds slots; the slots afterwards are those there
    before and those of the workers that called; a slot that was there
    keeps its pointer, and its worker is handed that pointer at every
    call, even an empty one; [number_of_nodes] is kept. *)
Theorem GetThreadData_calls_on_used_container threads c h :
  let r := ThreadData.GetThreadData_calls threads (c, h) in
  (∃ k : nat,
     r.2.2 = h ++ replicate k (ThreadData.ContractorThreadData_new 4000) ∧
     size (ThreadData.data r.2.1) = (size (ThreadData.data c) + k)%nat) ∧
  dom (ThreadData.data r.2.1) = list_to_set threads ∪ dom (ThreadData.data c) ∧
  ThreadData.number_of_nodes r.2.1 = ThreadData.number_of_nodes c ∧
  (∀ t q, ThreadData.data c !! t = Some q → ThreadData.data r.2.1 !! t = Some q) ∧
  (∀ i t q, threads !! i = Some t → ThreadData.data c !! t = Some q → r.1 !! i = Some q).
Proof.
  revert c h. induction threads as [|t threads IH]; intros c h; simpl.
  - split; [exists 0%nat; simpl; split; [by rewrite app_nil_r|lia]|].
    split; [by rewrite union_empty_l_L|]. split; [done|]. split; [done|]. by intros [|?] ?.
  - destruct (GetThreadData_grows c h t) as (k1 & Hh1 & Hs1 & Hd1 & Hn1 & Hk1 & Hp1).
    destruct (ThreadData.GetThreadData t (c, h)) as [p [c1 h1]]. simpl in *.
    specialize (IH c1 h1).
    destruct (ThreadData.GetThreadData_calls threads (c1, h1)) as [ps [c2 h2]]. simpl in *.
    destruct IH as ((k2 & Hh2 & Hs2) & Hd2 & Hn2 & Hk2 & Hp2).
    split; [exists (k1 + k2)%nat; split; [|lia]|].
    { by rewrite Hh2, Hh1, <- (assoc_L (++)), replicate_add. }
    split; [by rewrite Hd2, Hd1, (assoc_L (∪)), (comm_L (∪) (list_to_set threads))|].
    split; [congruence|]. split; [by intros t' q ?%Hk1%Hk2|].
    intros [|i] t' q; simpl.
    + intros [= <-] Hq. by rewrite (Hp1 q Hq).
    + intros Hi Hq. eapply Hp2; [done|]. by apply Hk1.
Qed.

End GetThreadData_more.

(** ** The further properties on the example graphs *)

(** Two copies of one shortcut after a record that stays: merging from
    index 1. *)
Lemma X1_witness :
  let r := ContractorEdge_new 0 2 2 2 1 2 true true false in
  let v := [ContractorEdge_new 5 6 1 1 0 1 false true true; r; r] in
  ∃ size' v',
    merge_duplicates (length v - 1) (length v) 1 1 v = Ok (size', v') ∧
    (1 ≤ size' ≤ length v)%nat ∧
    length v' = length v ∧
    take 1 v' = take 1 v ∧
    (size' - 1)%nat = length (remove_dups (edge_key <$> drop 1 v)).
Proof.
  intros r v. apply (merge_duplicates_in_bounds v 1). simpl. lia.
Defined.

(** Contracting the middle node of the two-way streets. *)
Lemma X2_witness :
  let m := Example.mem Example.street [0; 0; 0] None in
  ∃ m1 raw kept,
    for_each (contract_in_edge Example.INVALID_EDGE_WEIGHT false 1
                (GetAdjacentEdgeRange (graph m) 1))
      (GetAdjacentEdgeRange (graph m) 1) m = Ok m1 ∧
    inserted_edges m1 = inserted_edges m ++ raw ∧
    ContractNode Example.INVALID_EDGE_WEIGHT false 1 m =
      Ok (set_inserted_edges (inserted_edges m ++ kept) m1) ∧
    edge_key <$> kept = remove_dups (edge_key <$> raw) ∧
    ∀ r, r ∈ kept →
      ∃ before e after,
        raw = before ++ e :: after ∧ same_but_flags r e ∧
        edge_key r ∉ edge_key <$> after.
Proof.
  intros m. apply (ContractNode_keeps_last_duplicate Example.INVALID_EDGE_WEIGHT 1%nat m).
  apply weights_cover_Forall; [simpl; lia | repeat constructor; simpl; lia].
Defined.

(** Contracting B in A -> B -> C. *)
Lemma X3_witness :
  let m := Example.mem Example.chain [10; 10; 10] None in
  ∃ m1 raw,
    for_each (contract_in_edge Example.INVALID_EDGE_WEIGHT false 1
                (GetAdjacentEdgeRange (graph m) 1))
      (GetAdjacentEdgeRange (graph m) 1) m = Ok m1 ∧
    inserted_edges m1 = inserted_edges m ++ raw ∧
    (NoDup (edge_key <$> raw) → ContractNode Example.INVALID_EDGE_WEIGHT false 1 m = Ok m1).
Proof.
  intros m. apply (ContractNode_unique_keys_unmerged Example.INVALID_EDGE_WEIGHT 1%nat m).
  apply weights_cover_Forall; [simpl; lia | repeat constructor; simpl; lia].
Defined.

(** Contracting the end of the cul-de-sac with a buffer in use. *)
Lemma X4_witness :
  let m := set_inserted_edges [ContractorEdge_new 5 6 1 1 0 1 false true true]
             (Example.mem Example.cul_de_sac [10; 3] (Some ContractionStats_new)) in
  ∃ m', ContractNode Example.INVALID_EDGE_WEIGHT false 0 m = Ok m' ∧
    stats m' = stats m ∧
    graph m' = graph m ∧
    neighbours m' = neighbours m ∧
    length (node_weights m') = length (node_weights m) ∧
    node_weights m' !! 0%nat = node_weights m !! 0%nat ∧
    (∀ k, node_weights m' !! k = node_weights m !! k ∨
          loop_source 0 (GetAdjacentEdgeRange (graph m) 0) k) ∧
    inserted_edges m `prefix_of` inserted_edges m'.
Proof.
  intros m. apply (ContractNode_real_frame Example.INVALID_EDGE_WEIGHT 0%nat m).
  apply weights_cover_Forall; [simpl; lia | repeat constructor; simpl; lia].
Defined.

(** Contracting B in A -> B -> C where the path weight wraps around: the
    shortcut is recorded with the wrapped weight. *)
Lemma X5_witness :
  let m := Example.mem Example.heavy [10; 10; 10] None in
  EdgeWeight_add 2147483647 1 = -2147483648 ∧
  ∃ m' kept,
    ContractNode Example.INVALID_EDGE_WEIGHT false 1 m = Ok m' ∧
    inserted_edges m' = inserted_edges m ++ kept ∧
    ∀ r, r ∈ kept →
      shortcut (data r) = true ∧ id (data r) = 1%nat ∧
      source r ≠ 1%nat ∧ target r ≠ 1%nat ∧
      (forward (data r) = true ∨ backward (data r) = true) ∧
      ∃ in_edge out_edge,
        in_edge ∈ GetAdjacentEdgeRange (graph m) 1 ∧
        out_edge ∈ GetAdjacentEdgeRange (graph m) 1 ∧
        backward (GetEdgeData in_edge) = true ∧ forward (GetEdgeData out_edge) = true ∧
        weight (data r) =
          EdgeWeight_add (weight (GetEdgeData in_edge)) (weight (GetEdgeData out_edge)) ∧
        duration (data r) =
          EdgeWeight_add (duration (GetEdgeData in_edge)) (duration (GetEdgeData out_edge)) ∧
        originalEdges (data r) =
          originalEdges (GetEdgeData in_edge) + originalEdges (GetEdgeData out_edge) ∧
        ((source r = GetTarget in_edge ∧ target r = GetTarget out_edge) ∨
         (source r = GetTarget out_edge ∧ target r = GetTarget in_edge)).
Proof.
  intros m. split; [reflexivity|].
  apply (ContractNode_shortcuts_wellformed Example.INVALID_EDGE_WEIGHT 1%nat m).
  apply weights_cover_Forall; [simpl; lia | repeat constructor; simpl; lia].
Defined.

(** Contracting the roundabout node. *)
Lemma X6_witness :
  let m := Example.mem Example.roundabout [10; 10; 10] None in
  ∃ m' kept,
    ContractNode Example.INVALID_EDGE_WEIGHT false 0 m = Ok m' ∧
    inserted_edges m' = inserted_edges m ++ kept ∧
    ∀ r, r ∈ kept → ∃ r', r' ∈ kept ∧ mirrored r r'.
Proof.
  intros m. apply (ContractNode_shortcuts_mirrored Example.INVALID_EDGE_WEIGHT 0%nat m).
  apply weights_cover_Forall; [simpl; lia | repeat constructor; simpl; lia].
Defined.

(** B in A -> B -> C is entered from A only and left to C only, and is
    contracted with no [node_weights] at all. *)
Lemma X7_witness :
  let m := Example.mem Example.chain [] None in
  ∃ m', ContractNode Example.INVALID_EDGE_WEIGHT false 1 m = Ok m' ∧
        node_weights m' = node_weights m.
Proof.
  intros m. apply (ContractNode_without_loops Example.INVALID_EDGE_WEIGHT false 1%nat m).
  - intros k (_ & i & o & Hi & Ho & Hti & Hbi & Hto & Hfo).
    simpl in Hi, Ho.
    apply elem_of_cons in Hi as [->|Hi]; [|apply elem_of_cons in Hi as [->|Hi]];
      [|discriminate Hbi|by apply elem_of_nil in Hi].
    apply elem_of_cons in Ho as [->|Ho]; [|apply elem_of_cons in Ho as [->|Ho]];
      [discriminate Hfo| |by apply elem_of_nil in Ho].
    simpl in Hti, Hto. congruence.
  - discriminate.
Defined.

(** C in A -> B -> C has no edge leaving it. *)
Lemma X8_witness :
  let m := Example.mem Example.chain [] (Some ContractionStats_new) in
  ∃ m', ContractNode Example.INVALID_EDGE_WEIGHT true 2 m = Ok m' ∧
        inserted_edges m' = inserted_edges m ∧
        node_weights m' = node_weights m ∧
        same_added_counts m m'.
Proof.
  intros m. apply (ContractNode_dead_end Example.INVALID_EDGE_WEIGHT true 2%nat m).
  - left. intros e He Hf. simpl in He.
    apply elem_of_cons in He as [->|He]; [|apply elem_of_cons in He as [->|He]];
      [discriminate Hf|discriminate Hf|by apply elem_of_nil in He].
  - intros _. simpl. eauto.
Defined.


(** The reference witness search clears to the empty heap; contracting
    the middle node of the two-way streets with a heap left from before. *)
Lemma X10_witness :
  let m := Example.mem Example.street [0; 0; 0] None in
  let used := [WitnessSearch.mkHeapNode 2 7 ContractorHeapData_default true] in
  outcomes_agree
    (ContractNode Example.INVALID_EDGE_WEIGHT false 1 (set_dijkstra [] m))
    (ContractNode Example.INVALID_EDGE_WEIGHT false 1 (set_dijkstra used m)) ∧
  ((∃ e, e ∈ GetAdjacentEdgeRange (graph m) 1 ∧
         GetTarget e ≠ 1%nat ∧ backward (GetEdgeData e) = true) →
   ContractNode Example.INVALID_EDGE_WEIGHT false 1 (set_dijkstra [] m) =
   ContractNode Example.INVALID_EDGE_WEIGHT false 1 (set_dijkstra used m)).
Proof.
  intros m used.
  apply (ContractNode_scratch_independent Example.INVALID_EDGE_WEIGHT false 1%nat m [] used).
  intros d d'. reflexivity.
Defined.
